(** * URL query-parameter state: codec, history writer and param stores

    A shallow embedding of [starter/src/lib/urlState.ts] and
    [starter/src/hooks/useUrlState.ts], and the properties of the URL
    state subsystem proved on it.

    Scope of the embedding.
    - A JS string is the sequence of its UTF-8 bytes (Rocq's [string]).
      The parser of [URLSearchParams] gives the bytes it has decoded;
      the replacement of bytes that are not UTF-8 is not modelled.
    - A JS number is an integer-valued double ([VNum] of a [Z] that
      [is_double] accepts) or [Infinity]. [parseInt] rounds the integer
      that the digits write to the nearest double; [String] writes the
      fewest digits that are read as the number, followed by zeros below
      10^21 and in the exponent form from there on.
    - An object is the list of its own properties in the order of their
      enumeration; a [Record<string, ...>] holds a key at most once
      ([wf_obj]). The object that [parseUrlParams] fills has a prototype
      as well: [result[key]] sees what [Object.prototype] lends, and
      writing at an inherited [__proto__] replaces the prototype.
    - [window] is a record: the session history (the entries behind, the
      current entry, the entries ahead), the scroll offset and the queue
      of deferred tasks, together with the trace of the calls made on
      [window.history].
    - A hook instance is its React state next to the window; a callback
      runs on the state of the latest render. *)

From Stdlib Require Import ZArith NArith List String Ascii Bool Lia.
Import ListNotations.
Open Scope string_scope.

(** ** Characters and digits *)

Definition code (c : ascii) : N := N_of_ascii c.

Definition in_range (lo hi : N) (c : ascii) : bool :=
  ((lo <=? code c) && (code c <=? hi))%N.

(** [\d] of a JS regular expression: the ten ASCII digits. *)
Definition is_digit (c : ascii) : bool := in_range 48 57 c.

Definition digit_value (c : ascii) : Z := Z.of_N (code c - 48).

Fixpoint all_digits (s : string) : bool :=
  match s with
  | EmptyString => true
  | String c r => is_digit c && all_digits r
  end.

(** [/^\d+$/.test(s)]: one digit or more, and nothing else. *)
Definition matches_digits (s : string) : bool :=
  match s with
  | EmptyString => false
  | _ => all_digits s
  end.

(** The integer that a string of digits writes, read left to right. *)
Fixpoint parseInt_from (acc : Z) (s : string) : Z :=
  match s with
  | EmptyString => acc
  | String c r => parseInt_from (acc * 10 + digit_value c) r
  end.

Definition mathInt (s : string) : Z := parseInt_from 0 s.

Definition digit_char (d : N) : ascii := ascii_of_N (48 + d).

(** Decimal digits of [n], most significant first, written in front of
    [acc]; [fuel] bounds the number of digits. *)
Fixpoint digits_onto (fuel : nat) (n : N) (acc : string) : string :=
  match fuel with
  | O => acc
  | S f =>
      let acc' := String (digit_char (n mod 10)) acc in
      if (n <? 10)%N then acc' else digits_onto f (n / 10) acc'
  end.

Definition decimal_of_N (n : N) : string :=
  digits_onto (S (N.to_nat (N.log2 n))) n "".

(** ** Numbers

    An integer from 0 up as the number that holds it: itself below 2^53;
    beyond, the nearest integer with 53 significant bits, ties to the
    even one; [None], which is [Infinity], from 2^1024 - 2^970 on. *)
Definition round_to_double (n : Z) : option Z :=
  if (n <? 9007199254740992)%Z then Some n
  else
    let e := (Z.log2 n - 52)%Z in
    let q := Z.shiftr n e in
    let r := (n - Z.shiftl q e)%Z in
    let half := (2 ^ (e - 1))%Z in
    let q' := if (half <? r)%Z || ((r =? half)%Z && Z.odd q)
              then (q + 1)%Z else q in
    let m := Z.shiftl q' e in
    if (2 ^ 1024 <=? m)%Z then None else Some m.

(** The integers from 0 up that are numbers. *)
Definition is_double (n : Z) : bool :=
  match round_to_double n with
  | Some d => (d =? n)%Z
  | None => false
  end.

(** The decimal [s * 10^p] is read as the number [x]. *)
Definition reads_as (s p x : Z) : bool :=
  match round_to_double (s * 10 ^ p) with
  | Some d => (d =? x)%Z
  | None => false
  end.

Definition digit_count (x : Z) : Z :=
  Z.of_nat (String.length (decimal_of_N (Z.to_N x))).

(** The decimal of [k] digits that is read as [x] and is nearest to it
    (the even one of two at the same distance), if there is one. *)
Definition shortest_at (k x : Z) : option (Z * Z) :=
  let p := (digit_count x - k)%Z in
  let lo := (x / 10 ^ p)%Z in
  let hi := (lo + 1)%Z in
  match reads_as lo p x, reads_as hi p x with
  | true, true =>
      let below := (x - lo * 10 ^ p)%Z in
      let above := (hi * 10 ^ p - x)%Z in
      if (below <? above)%Z then Some (lo, p)
      else if (above <? below)%Z then Some (hi, p)
      else if Z.even lo then Some (lo, p) else Some (hi, p)
  | true, false => Some (lo, p)
  | false, true => Some (hi, p)
  | false, false => None
  end.

(** The decimal of the fewest digits, [k] or more, that is read as [x]. *)
Fixpoint shortest_from (fuel : nat) (k x : Z) : Z * Z :=
  match fuel with
  | O => (x, 0%Z)
  | S f =>
      match shortest_at k x with
      | Some sp => sp
      | None => shortest_from f (k + 1)%Z x
      end
  end.

Fixpoint drop_zeros (fuel : nat) (s p : Z) : Z * Z :=
  match fuel with
  | O => (s, p)
  | S f =>
      if ((s mod 10 =? 0) && (0 <? s))%Z
      then drop_zeros f (s / 10)%Z (p + 1)%Z
      else (s, p)
  end.

(** [String(x)] for a number [x] from 10^21 up: the fewest digits that
    are read as [x], a point after the first one, and the exponent. *)
Definition exponent_form (x : Z) : string :=
  let (s0, p0) := shortest_from 17 1%Z x in
  let (s, p) := drop_zeros 400 s0 p0 in
  let ds := decimal_of_N (Z.to_N s) in
  let e := (p + Z.of_nat (String.length ds) - 1)%Z in
  match ds with
  | EmptyString => ""
  | String d EmptyString => String d ("e+" ++ decimal_of_N (Z.to_N e))
  | String d rest =>
      String d ("." ++ rest ++ "e+" ++ decimal_of_N (Z.to_N e))
  end.

(** [String(x)] for a number [x] from 2^53 to 10^21: the fewest digits
    that are read as [x], followed by zeros. *)
Definition digits_form (x : Z) : string :=
  let (s, p) := shortest_from 17 1%Z x in
  decimal_of_N (Z.to_N (s * 10 ^ p)).

(** Below 2^53 an integer is written by its own digits: no decimal of
    fewer digits is read as it. *)
Definition magnitude_to_string (n : Z) : string :=
  if (n <? 9007199254740992)%Z then decimal_of_N (Z.to_N n)
  else if (n <? 10 ^ 21)%Z then digits_form n
  else exponent_form n.

(** [String(n)] for an integer-valued number. *)
Definition number_to_string (n : Z) : string :=
  if (n <? 0)%Z then "-" ++ magnitude_to_string (Z.abs n)
  else magnitude_to_string n.

(** ** Values *)

(** What the host lends: [Object.prototype] itself, and the built-in
    functions, known by their names. *)
Inductive native : Type :=
  | ObjectPrototype
  | NativeFunction (name : string).

#[warnings="-register-all"]
Inductive jsval : Type :=
  | VUndefined
  | VNull
  | VBool (b : bool)
  | VNum (n : Z)
  | VStr (s : string)
  | VArr (elems : list jsval)
  | VInfinity
  | VNative (h : native).

(** [String(h)]; a built-in function as V8 and JavaScriptCore write
    it. *)
Definition native_to_string (h : native) : string :=
  match h with
  | ObjectPrototype => "[object Object]"
  | NativeFunction name => "function " ++ name ++ "() { [native code] }"
  end.

(** [String(v)]. An array is its elements joined by commas, where
    [undefined] and [null] elements are written as nothing. *)
Fixpoint jsString (v : jsval) : string :=
  match v with
  | VUndefined => "undefined"
  | VNull => "null"
  | VBool true => "true"
  | VBool false => "false"
  | VNum n => number_to_string n
  | VStr s => s
  | VInfinity => "Infinity"
  | VNative h => native_to_string h
  | VArr l =>
      (fix join (l : list jsval) : string :=
         match l with
         | [] => ""
         | e :: r =>
             let here :=
               match e with
               | VUndefined | VNull => ""
               | _ => jsString e
               end in
             match r with
             | [] => here
             | _ => here ++ "," ++ join r
             end
         end) l
  end.

Definition is_undefined (v : jsval) : bool :=
  match v with VUndefined => true | _ => false end.

Definition is_array (v : jsval) : bool :=
  match v with VArr _ => true | _ => false end.

(** [parseInt(s, 10)] on a string of digits: the number nearest to the
    integer that the digits write. (Beyond 20 significant digits the
    language lets an engine read an approximation of that integer.) *)
Definition parseInt10 (s : string) : jsval :=
  match round_to_double (mathInt s) with
  | Some d => VNum d
  | None => VInfinity
  end.

(** ** Objects *)

Definition obj : Type := list (string * jsval).

Definition keys (o : obj) : list string := map fst o.

Fixpoint obj_get (k : string) (o : obj) : option jsval :=
  match o with
  | [] => None
  | (k', v) :: r => if String.eqb k k' then Some v else obj_get k r
  end.

(** [o[k]]: a missing property reads as [undefined]. *)
Definition obj_read (k : string) (o : obj) : jsval :=
  match obj_get k o with
  | Some v => v
  | None => VUndefined
  end.

Definition has_key (k : string) (o : obj) : bool :=
  match obj_get k o with Some _ => true | None => false end.

(** An array index: the canonical decimal writing of an integer of
    [0 .. 2^32 - 2]. Such keys are enumerated first, in numeric order. *)
Definition is_array_index (k : string) : bool :=
  matches_digits k
  && (String.eqb k "0"
      || match k with String c _ => negb (Ascii.eqb c "0") | _ => false end)
  && (mathInt k <=? 4294967294)%Z.

Fixpoint obj_replace (k : string) (v : jsval) (o : obj) : obj :=
  match o with
  | [] => []
  | (k', v') :: r =>
      if String.eqb k k' then (k, v) :: r else (k', v') :: obj_replace k v r
  end.

Fixpoint insert_index (k : string) (v : jsval) (o : obj) : obj :=
  match o with
  | [] => [(k, v)]
  | (k', v') :: r =>
      if is_array_index k' && (mathInt k' <? mathInt k)%Z
      then (k', v') :: insert_index k v r
      else (k, v) :: o
  end.

(** [o[k] = v]: an existing property keeps its place; a new one is
    enumerated after the existing ones, index keys before the others. *)
Definition obj_set (k : string) (v : jsval) (o : obj) : obj :=
  if has_key k o then obj_replace k v o
  else if is_array_index k then insert_index k v o
  else (o ++ [(k, v)])%list.

(** [delete o[k]]. *)
Fixpoint obj_delete (k : string) (o : obj) : obj :=
  match o with
  | [] => []
  | (k', v') :: r =>
      if String.eqb k k' then r else (k', v') :: obj_delete k r
  end.

(** [{...base, ...src}]: the own properties of [src] are set on [base]
    in their order. *)
Definition obj_assign (base src : obj) : obj :=
  fold_left (fun acc kv => obj_set (fst kv) (snd kv) acc) src base.

(** [{...o}] where [o] may be [undefined]. *)
Definition spread (o : option obj) : obj :=
  match o with
  | Some o => obj_assign [] o
  | None => []
  end.

Fixpoint nodup_keys (ks : list string) : bool :=
  match ks with
  | [] => true
  | k :: r => negb (existsb (String.eqb k) r) && nodup_keys r
  end.

(** A key names one property. *)
Definition wf_obj (o : obj) : bool := nodup_keys (keys o).

(** Two objects with the same properties: same keys, same values. *)
Definition obj_equiv (o1 o2 : obj) : Prop :=
  forall k, obj_get k o1 = obj_get k o2.

(** ** URLSearchParams

    The list of name and value pairs of a query string, with the
    [application/x-www-form-urlencoded] parser and serializer. *)

Definition usp : Type := list (string * string).

Definition usp_append (name val : string) (l : usp) : usp :=
  (l ++ [(name, val)])%list.

Fixpoint usp_has (name : string) (l : usp) : bool :=
  match l with
  | [] => false
  | (n, _) :: r => String.eqb name n || usp_has name r
  end.

Definition usp_remove (name : string) (l : usp) : usp :=
  filter (fun p => negb (String.eqb name (fst p))) l.

Fixpoint usp_set_first (name val : string) (l : usp) : usp :=
  match l with
  | [] => []
  | (n, v) :: r =>
      if String.eqb name n then (n, val) :: usp_remove name r
      else (n, v) :: usp_set_first name val r
  end.

(** [set]: the first pair of that name takes the value and the others
    go; without such a pair, [append]. *)
Definition usp_set (name val : string) (l : usp) : usp :=
  if usp_has name l then usp_set_first name val l
  else usp_append name val l.

(** *** Serializer *)

Definition is_alnum (c : ascii) : bool :=
  in_range 48 57 c || in_range 65 90 c || in_range 97 122 c.

(** The bytes the serializer writes as they are: alphanumerics and
    [*], [-], [.], [_]. *)
Definition is_plain (c : ascii) : bool :=
  is_alnum c
  || Ascii.eqb c "*" || Ascii.eqb c "-" || Ascii.eqb c "." || Ascii.eqb c "_".

Definition hex_char (d : N) : ascii :=
  if (d <? 10)%N then ascii_of_N (48 + d) else ascii_of_N (55 + d).

Definition encode_byte (c : ascii) : string :=
  if Ascii.eqb c " " then "+"
  else if is_plain c then String c ""
  else String "%" (String (hex_char (code c / 16))
                     (String (hex_char (code c mod 16)) "")).

Fixpoint urlencode (s : string) : string :=
  match s with
  | EmptyString => ""
  | String c r => encode_byte c ++ urlencode r
  end.

Fixpoint join_with (sep : string) (l : list string) : string :=
  match l with
  | [] => ""
  | x :: r =>
      match r with
      | [] => x
      | _ => x ++ sep ++ join_with sep r
      end
  end.

Definition encode_pair (p : string * string) : string :=
  urlencode (fst p) ++ "=" ++ urlencode (snd p).

Definition usp_toString (l : usp) : string :=
  join_with "&" (map encode_pair l).

(** *** Parser *)

Fixpoint split_on (sep : ascii) (s : string) : list string :=
  match s with
  | EmptyString => [""]
  | String c r =>
      if Ascii.eqb c sep then "" :: split_on sep r
      else match split_on sep r with
           | h :: t => String c h :: t
           | [] => [String c ""]
           end
  end.

(** The text before the first [sep] and the text after it. *)
Fixpoint cut_at (sep : ascii) (s : string) : option (string * string) :=
  match s with
  | EmptyString => None
  | String c r =>
      if Ascii.eqb c sep then Some ("", r)
      else match cut_at sep r with
           | Some (a, b) => Some (String c a, b)
           | None => None
           end
  end.

Fixpoint plus_to_space (s : string) : string :=
  match s with
  | EmptyString => ""
  | String c r =>
      String (if Ascii.eqb c "+" then " "%char else c) (plus_to_space r)
  end.

Definition hex_value (c : ascii) : option N :=
  if in_range 48 57 c then Some (code c - 48)%N
  else if in_range 65 70 c then Some (code c - 55)%N
  else if in_range 97 102 c then Some (code c - 87)%N
  else None.

(** A [%] followed by two hex digits is the byte they write; any other
    byte, a lone [%] too, stays. *)
Fixpoint percent_decode (s : string) : string :=
  match s with
  | EmptyString => ""
  | String c r =>
      let keep := String c (percent_decode r) in
      if Ascii.eqb c "%" then
        match r with
        | String h (String l r') =>
            match hex_value h, hex_value l with
            | Some a, Some b =>
                String (ascii_of_N (a * 16 + b)) (percent_decode r')
            | _, _ => keep
            end
        | _ => keep
        end
      else keep
  end.

Definition decode_component (s : string) : string :=
  percent_decode (plus_to_space s).

Definition parse_pair (seg : string) : string * string :=
  match cut_at "=" seg with
  | Some (n, v) => (decode_component n, decode_component v)
  | None => (decode_component seg, "")
  end.

Definition is_empty (s : string) : bool :=
  match s with EmptyString => true | _ => false end.

Definition parse_urlencoded (s : string) : usp :=
  map parse_pair (filter (fun seg => negb (is_empty seg)) (split_on "&" s)).

(** [new URLSearchParams(init)]: a leading [?] is dropped. *)
Definition usp_of_string (init : string) : usp :=
  match init with
  | String "?" r => parse_urlencoded r
  | _ => parse_urlencoded init
  end.

(** ** The window *)

Record location : Type := mkLocation {
  pathname : string;
  search : string;
  hash : string
}.

Inductive history_call : Type :=
  | PushState (url : location)
  | ReplaceState (url : location).

Record window : Type := mkWindow {
  behind : list location;     (* entries to go back to, nearest first *)
  here : location;            (* window.location *)
  ahead : list location;      (* entries to go forward to, nearest first *)
  scrollY : Z;
  tasks : list Z;             (* deferred scrollTo(0, y), oldest first *)
  calls : list history_call   (* calls made on window.history, oldest first *)
}.

Definition history_length (w : window) : nat :=
  (List.length (behind w) + 1 + List.length (ahead w))%nat.

(** [history.pushState(null, '', url)]: a new entry after the current
    one; the entries ahead are dropped. *)
Definition pushState (url : location) (w : window) : window :=
  {| behind := here w :: behind w;
     here := url;
     ahead := [];
     scrollY := scrollY w;
     tasks := tasks w;
     calls := (calls w ++ [PushState url])%list |}.

(** [history.replaceState(null, '', url)]: the current entry changes. *)
Definition replaceState (url : location) (w : window) : window :=
  {| behind := behind w;
     here := url;
     ahead := ahead w;
     scrollY := scrollY w;
     tasks := tasks w;
     calls := (calls w ++ [ReplaceState url])%list |}.

(** [setTimeout(() => window.scrollTo(0, y), 0)]. *)
Definition defer_scroll (y : Z) (w : window) : window :=
  {| behind := behind w;
     here := here w;
     ahead := ahead w;
     scrollY := scrollY w;
     tasks := (tasks w ++ [y])%list;
     calls := calls w |}.

(** The user goes back one entry (the event [popstate] follows). *)
Definition go_back (w : window) : window :=
  match behind w with
  | [] => w
  | l :: rest =>
      {| behind := rest;
         here := l;
         ahead := here w :: ahead w;
         scrollY := scrollY w;
         tasks := tasks w;
         calls := calls w |}
  end.

(** The user goes forward one entry. *)
Definition go_forward (w : window) : window :=
  match ahead w with
  | [] => w
  | l :: rest =>
      {| behind := here w :: behind w;
         here := l;
         ahead := rest;
         scrollY := scrollY w;
         tasks := tasks w;
         calls := calls w |}
  end.

(** ** lib/urlState.ts *)

Definition getUrlParams (w : window) : usp :=
  usp_of_string (search (here w)).

(** The type inference of [parseUrlParams] on one raw value. *)
Definition infer (value : string) : jsval :=
  if String.eqb value "true" then VBool true
  else if String.eqb value "false" then VBool false
  else if matches_digits value then parseInt10 value
  else VStr value.

(** *** The object that [parseUrlParams] fills

    [result] is [{ ...defaults }]: own properties, and a prototype,
    which is [Object.prototype] until a sequence is written at an
    inherited [__proto__] and becomes the prototype. *)

(** The functions of [Object.prototype], apart from [constructor]. *)
Definition object_prototype_methods : list string :=
  ["__defineGetter__"; "__defineSetter__"; "hasOwnProperty";
   "__lookupGetter__"; "__lookupSetter__"; "isPrototypeOf";
   "propertyIsEnumerable"; "toString"; "valueOf"; "toLocaleString"].

(** The functions of [Array.prototype], apart from [constructor]. *)
Definition array_prototype_methods : list string :=
  ["at"; "concat"; "copyWithin"; "entries"; "every"; "fill"; "filter";
   "find"; "findIndex"; "findLast"; "findLastIndex"; "flat"; "flatMap";
   "forEach"; "includes"; "indexOf"; "join"; "keys"; "lastIndexOf"; "map";
   "pop"; "push"; "reduce"; "reduceRight"; "reverse"; "shift"; "slice";
   "some"; "sort"; "splice"; "toLocaleString"; "toReversed"; "toSorted";
   "toSpliced"; "toString"; "unshift"; "values"; "with"].

Definition named (name : string) (names : list string) : bool :=
  existsb (String.eqb name) names.

Inductive prototype : Type :=
  | ProtoObject
  | ProtoArray (elems : list jsval).

Record jsobject : Type := mkObject {
  own : obj;
  proto : prototype
}.

(** What [Object.prototype] has for [key], [__proto__] apart. *)
Definition from_object_prototype (key : string) : jsval :=
  if String.eqb key "constructor" then VNative (NativeFunction "Object")
  else if named key object_prototype_methods
       then VNative (NativeFunction key)
  else VUndefined.

(** What a sequence has for [key]: its elements, its length, then what
    [Array.prototype] and [Object.prototype] have. *)
Definition from_array (elems : list jsval) (key : string) : jsval :=
  if is_array_index key && (mathInt key <? Z.of_nat (List.length elems))%Z
  then nth (Z.to_nat (mathInt key)) elems VUndefined
  else if String.eqb key "length" then VNum (Z.of_nat (List.length elems))
  else if String.eqb key "constructor" then VNative (NativeFunction "Array")
  else if named key array_prototype_methods
       then VNative (NativeFunction key)
  else from_object_prototype key.

(** What the prototype chain has for [key]; [__proto__] reads the
    prototype itself. *)
Definition inherited (p : prototype) (key : string) : jsval :=
  if String.eqb key "__proto__" then
    match p with
    | ProtoObject => VNative ObjectPrototype
    | ProtoArray elems => VArr elems
    end
  else
    match p with
    | ProtoObject => from_object_prototype key
    | ProtoArray elems => from_array elems key
    end.

(** [result[key]]: the own property, or else what the chain has. *)
Definition js_get (key : string) (result : jsobject) : jsval :=
  match obj_get key (own result) with
  | Some v => v
  | None => inherited (proto result) key
  end.

(** [result[key] = [...]]: an own property is written; so is a new one,
    except at [__proto__], where the sequence becomes the prototype. *)
Definition js_set_array (key : string) (elems : list jsval)
    (result : jsobject) : jsobject :=
  if negb (has_key key (own result)) && String.eqb key "__proto__"
  then {| own := own result; proto := ProtoArray elems |}
  else {| own := obj_set key (VArr elems) (own result);
          proto := proto result |}.

(** [result[key] = v] where [result[key]] is [undefined]: the chain has
    nothing for [key], and the property is written on the object. *)
Definition js_set_fresh (key : string) (v : jsval)
    (result : jsobject) : jsobject :=
  {| own := obj_set key v (own result); proto := proto result |}.

(** The callback of [params.forEach] in [parseUrlParams]. *)
Definition parse_entry (result : jsobject) (p : string * string) : jsobject :=
  let (key, value) := p in
  if negb (is_undefined (js_get key result)) then
    let existing := js_get key result in
    match existing with
    | VArr elems => js_set_array key (elems ++ [VStr value]) result
    | _ => js_set_array key [existing; VStr value] result
    end
  else js_set_fresh key (infer value) result.

(** The own properties of the object that [parseUrlParams] returns;
    they are what the spreads and [Object.entries] of its callers see. *)
Definition parseUrlParams (defaults : option obj) (w : window) : obj :=
  own (fold_left parse_entry (getUrlParams w)
         {| own := spread defaults; proto := ProtoObject |}).

(** The callback of [Object.entries(params).forEach] in
    [buildQueryString]. *)
Definition build_entry (searchParams : usp) (kv : string * jsval) : usp :=
  let (key, value) := kv in
  match value with
  | VUndefined | VNull | VStr EmptyString => searchParams
  | VArr elems =>
      fold_left (fun sp v => usp_append key (jsString v) sp) elems searchParams
  | _ => usp_set key (jsString value) searchParams
  end.

Definition build_params (params : obj) : usp :=
  fold_left build_entry params [].

Definition buildQueryString (params : obj) : string :=
  let qs := usp_toString (build_params params) in
  if is_empty qs then "" else "?" ++ qs.

(** An optional boolean property: not there, there as [undefined], or
    there as a boolean. *)
Inductive flag : Type :=
  | Missing
  | Undefined
  | Flag (b : bool).

Record options : Type := mkOptions {
  replace : flag;
  scroll : flag
}.

(** [options?.replace] and [options?.scroll] as conditions. *)
Definition wants_replace (o : option options) : bool :=
  match o with
  | Some {| replace := Flag true |} => true
  | _ => false
  end.

Definition wants_scroll (o : option options) : bool :=
  match o with
  | Some {| scroll := Flag true |} => true
  | _ => false
  end.

Definition setUrlParams (params : obj) (opts : option options)
    (w : window) : window :=
  let qs := buildQueryString params in
  let url := {| pathname := pathname (here w);
                search := qs;
                hash := hash (here w) |} in
  let w1 := if wants_replace opts then replaceState url w
            else pushState url w in
  if negb (wants_scroll opts) then defer_scroll (scrollY w1) w1 else w1.

Definition updateUrlParams (updates : obj) (opts : option options)
    (w : window) : window :=
  let current := parseUrlParams None w in
  setUrlParams (obj_assign (spread (Some current)) updates) opts w.

Definition removeUrlParams (ks : list string) (opts : option options)
    (w : window) : window :=
  let current := parseUrlParams None w in
  let next := fold_left (fun o k => obj_delete k o) ks
                (spread (Some current)) in
  setUrlParams next opts w.

(** [{ page: 1, pageSize: 10, ...defaults }]. *)
Definition table_defaults (defaults : option obj) : obj :=
  let base := obj_set "pageSize" (VNum 10) (obj_set "page" (VNum 1) []) in
  match defaults with
  | Some d => obj_assign base d
  | None => base
  end.

Definition parseTableParams (defaults : option obj) (w : window) : obj :=
  parseUrlParams (Some (table_defaults defaults)) w.

(** [{ replace: true, ...options }]: a [replace] that [options] has,
    [undefined] included, takes the place of [true]. *)
Definition replace_by_default (opts : option options) : options :=
  match opts with
  | Some {| replace := Missing; scroll := s |} =>
      {| replace := Flag true; scroll := s |}
  | Some o => o
  | None => {| replace := Flag true; scroll := Missing |}
  end.

Definition setTableParams (params : obj) (opts : option options)
    (w : window) : window :=
  setUrlParams params (Some (replace_by_default opts)) w.

(** ** hooks/useUrlState.ts

    A hook instance is its React state next to the window. A callback
    runs on the state of the render that made it. *)

Record store (S : Type) : Type := mkStore {
  state : S;
  win : window
}.
Arguments mkStore {S} _ _.
Arguments state {S} _.
Arguments win {S} _.

Definition M (S A : Type) : Type := store S -> A * store S.

Definition ret {S A} (a : A) : M S A := fun st => (a, st).

Definition bind {S A B} (m : M S A) (f : A -> M S B) : M S B :=
  fun st => let (a, st') := m st in f a st'.

Notation "x <- m ;; k" := (bind m (fun x => k))
  (at level 61, m at next level, right associativity).
Notation "m ;; k" := (bind m (fun _ => k))
  (at level 61, right associativity).

Definition getState {S} : M S S := fun st => (state st, st).

Definition setState {S} (s : S) : M S unit :=
  fun st => (tt, {| state := s; win := win st |}).

Definition readWindow {S A} (f : window -> A) : M S A :=
  fun st => (f (win st), st).

Definition onWindow {S} (f : window -> window) : M S unit :=
  fun st => (tt, {| state := state st; win := f (win st) |}).

Definition run {S A} (m : M S A) (st : store S) : store S := snd (m st).

Module UseUrlState.
Section Hook.

Variable defaults : option obj.

(** The state is a [T]; [None] is [undefined]. *)
Definition T : Type := option obj.

Definition init (w : window) : store T :=
  {| state := Some (parseUrlParams defaults w); win := w |}.

Definition handlePopState : M T unit :=
  parsed <- readWindow (parseUrlParams defaults) ;;
  setState (Some parsed).

Definition set (params : obj) : M T unit :=
  setState (Some params) ;;
  onWindow (setUrlParams params None).

Definition update (params : obj) : M T unit :=
  st <- getState ;;
  let next := obj_assign (spread st) params in
  setState (Some next) ;;
  onWindow (updateUrlParams params None).

Definition remove (ks : list string) : M T unit :=
  st <- getState ;;
  let next := fold_left (fun o k => obj_delete k o) ks (spread st) in
  setState (Some next) ;;
  onWindow (removeUrlParams ks None).

Definition reset : M T unit :=
  let next := defaults in
  setState next ;;
  onWindow (setUrlParams (match next with Some n => n | None => [] end)
              None).

End Hook.
End UseUrlState.

Inductive sort_order : Type := asc | desc.

Definition sort_order_value (o : sort_order) : jsval :=
  match o with
  | asc => VStr "asc"
  | desc => VStr "desc"
  end.

Module UseTableUrlState.
Section Hook.

Variable defaults : option obj.

Definition init (w : window) : store obj :=
  {| state := parseTableParams defaults w; win := w |}.

Definition handlePopState : M obj unit :=
  parsed <- readWindow (parseTableParams defaults) ;;
  setState parsed.

Definition setAndSync (params : obj) : M obj unit :=
  setState params ;;
  onWindow (setTableParams params None).

Definition setPage (page : Z) : M obj unit :=
  st <- getState ;;
  setAndSync (obj_set "page" (VNum page) (spread (Some st))).

Definition setPageSize (pageSize : Z) : M obj unit :=
  st <- getState ;;
  setAndSync (obj_set "pageSize" (VNum pageSize)
                (obj_set "page" (VNum 1) (spread (Some st)))).

Definition setSearch (search : string) : M obj unit :=
  st <- getState ;;
  setAndSync (obj_set "search"
                (if is_empty search then VUndefined else VStr search)
                (obj_set "page" (VNum 1) (spread (Some st)))).

Definition setSort (sortField : string) (sortOrder : sort_order)
    : M obj unit :=
  st <- getState ;;
  setAndSync (obj_set "sortOrder" (sort_order_value sortOrder)
                (obj_set "sortField" (VStr sortField)
                   (spread (Some st)))).

Definition setFilter (key : string) (value : jsval) : M obj unit :=
  st <- getState ;;
  setAndSync (obj_set key
                (match value with
                 | VStr EmptyString => VUndefined
                 | _ => value
                 end)
                (obj_set "page" (VNum 1) (spread (Some st)))).

Definition reset : M obj unit :=
  let next := table_defaults defaults in
  setState next ;;
  onWindow (setTableParams next None).

End Hook.
End UseTableUrlState.


(** ** Vocabulary of the statements *)

(** The raw values a query gives for [key], in their order. *)
Definition values_of (key : string) (l : usp) : list string :=
  map snd (filter (fun p => String.eqb key (fst p)) l).

(** What one more raw value makes of the value held for its key. *)
Definition absorb (existing : jsval) (raw : string) : jsval :=
  match existing with
  | VUndefined => infer raw
  | VArr elems => VArr (elems ++ [VStr raw])
  | _ => VArr [existing; VStr raw]
  end.

(** The mutators that [useTableUrlState] returns. *)
Inductive table_mutator : Type :=
  | SetPage (page : Z)
  | SetPageSize (pageSize : Z)
  | SetSearch (search : string)
  | SetSort (sortField : string) (sortOrder : sort_order)
  | SetFilter (key : string) (value : jsval)
  | Reset.

Definition call (defaults : option obj) (m : table_mutator) : M obj unit :=
  match m with
  | SetPage page => UseTableUrlState.setPage page
  | SetPageSize pageSize => UseTableUrlState.setPageSize pageSize
  | SetSearch search => UseTableUrlState.setSearch search
  | SetSort sortField sortOrder => UseTableUrlState.setSort sortField sortOrder
  | SetFilter key value => UseTableUrlState.setFilter key value
  | Reset => UseTableUrlState.reset defaults
  end.

Fixpoint has_char (c : ascii) (s : string) : bool :=
  match s with
  | EmptyString => false
  | String c' r => Ascii.eqb c c' || has_char c r
  end.

(** A string without [&] and [=], a boolean, or an integer from 0 up. *)
Definition plain_value (v : jsval) : bool :=
  match v with
  | VStr s => negb (has_char "&" s) && negb (has_char "=" s)
  | VBool _ => true
  | VNum n => (0 <=? n)%Z
  | _ => false
  end.

(** A string that the type inference leaves alone, and that the
    serializer does not omit. *)
Definition stays_string (s : string) : bool :=
  negb (is_empty s)
  && negb (String.eqb s "true") && negb (String.eqb s "false")
  && negb (matches_digits s).

(** A value that is read back as it was written: a boolean, a string
    that stays a string, or an integer that is a number and is written in
    decimal digits, which [String] does below 10^21. *)
Definition faithful_value (v : jsval) : bool :=
  plain_value v
  && match v with
     | VStr s => stays_string s
     | VNum n => (n <? 10 ^ 21)%Z && is_double n
     | _ => true
     end.

(** The names that [Object.prototype] lends to every plain object. *)
Definition object_lends (key : string) : bool :=
  String.eqb key "__proto__" || String.eqb key "constructor"
  || named key object_prototype_methods.

(** The names that a sequence can lend once it is the prototype: its
    indices and its length, and the names of [Array.prototype]. *)
Definition array_lends (key : string) : bool :=
  is_array_index key || String.eqb key "length"
  || named key array_prototype_methods.

(** Nothing is inherited for [key] while the pairs [l] are read into
    [result]: the key is an own property, or [Object.prototype] does not
    lend it and either the prototype is [Object.prototype] and stays so,
    or a sequence would not lend the key either. *)
Definition settled (key : string) (result : jsobject) (l : usp) : Prop :=
  has_key key (own result) = true
  \/ (object_lends key = false
      /\ ((proto result = ProtoObject /\ usp_has "__proto__" l = false)
          \/ array_lends key = false)).

(** While [parseUrlParams] reads the pairs [l], starting from
    [Object.prototype] as the prototype, nothing is ever inherited for
    [key]: [Object.prototype] does not lend it, and either no pair is
    named [__proto__] or a sequence would not lend it either. *)
Definition unlent (key : string) (l : usp) : bool :=
  negb (object_lends key)
  && (negb (usp_has "__proto__" l) || negb (array_lends key)).

(** [undefined], [null] and the empty string: what [buildQueryString]
    leaves out. *)
Definition omitted (v : jsval) : bool :=
  match v with
  | VUndefined | VNull | VStr EmptyString => true
  | _ => false
  end.

(** The value that [defaults] gives to [key], if any. *)
Definition default_of (key : string) (defaults : option obj) : option jsval :=
  match defaults with
  | Some d => obj_get key d
  | None => None
  end.

(** Defaults that are given hold a key at most once. *)
Definition wf_defaults (defaults : option obj) : bool :=
  match defaults with
  | Some d => wf_obj d
  | None => true
  end.

(** A window on a fresh tab, at the given query string. *)
Definition window_at (query : string) : window :=
  {| behind := [];
     here := {| pathname := "/items"; search := query; hash := "" |};
     ahead := [];
     scrollY := 0;
     tasks := [];
     calls := [] |}.

(** The pair that [buildQueryString] writes for a property that is not
    a sequence. *)
Definition written (kv : string * jsval) : string * string :=
  (fst kv, jsString (snd kv)).

(** The table hook over time, from the window [w0] it is mounted on: a
    mutator is called, or the user goes back or forward and the handler
    of [popstate] runs. *)
Inductive table_reachable (defaults : option obj) (w0 : window)
    : store obj -> Prop :=
  | reach_init :
      table_reachable defaults w0 (UseTableUrlState.init defaults w0)
  | reach_call m st :
      table_reachable defaults w0 st ->
      table_reachable defaults w0 (run (call defaults m) st)
  | reach_back st :
      table_reachable defaults w0 st ->
      table_reachable defaults w0
        (run (UseTableUrlState.handlePopState defaults)
           {| state := state st; win := go_back (win st) |})
  | reach_forward st :
      table_reachable defaults w0 st ->
      table_reachable defaults w0
        (run (UseTableUrlState.handlePopState defaults)
           {| state := state st; win := go_forward (win st) |}).

Definition is_replace (c : history_call) : bool :=
  match c with
  | ReplaceState _ => true
  | PushState _ => false
  end.

(** ** Vocabulary of the further properties *)

(** The raw values that [buildQueryString] writes for a value: none
    for what it leaves out, one for each element of a sequence, one for
    any other value. *)
Definition raws_of (v : jsval) : list string :=
  match v with
  | VUndefined | VNull | VStr EmptyString => []
  | VArr elems => map jsString elems
  | _ => [jsString v]
  end.

Definition pairs_of (kv : string * jsval) : usp :=
  map (fun raw => (fst kv, raw)) (raws_of (snd kv)).

(** What [parseUrlParams] holds for a key without default, from the raw
    values of the key: nothing, the inferred value of a single one, or
    the sequence of the inferred first one and the others as strings. *)
Definition read_back (raws : list string) : option jsval :=
  match raws with
  | [] => None
  | [raw] => Some (infer raw)
  | raw :: others => Some (VArr (infer raw :: map VStr others))
  end.

(** A string that the type inference leaves a string. *)
Definition keeps_type (s : string) : bool :=
  negb (String.eqb s "true") && negb (String.eqb s "false")
  && negb (matches_digits s).

(** A value that is the inferred value of its own writing: a boolean,
    a string that keeps its type, or an integer from 0 up that is a
    number and is written in digits, which [String] does below 10^21. *)
Definition inferred_back (v : jsval) : bool :=
  match v with
  | VBool _ => true
  | VNum n => (0 <=? n)%Z && (n <? 10 ^ 21)%Z && is_double n
  | VStr s => keeps_type s
  | _ => false
  end.

Definition is_str (v : jsval) : bool :=
  match v with VStr _ => true | _ => false end.

(** The values that come back as they are: a boolean, a number from 0
    up that is written in digits, a string that is not empty and keeps
    its type, or a sequence of two elements or more whose first element
    is the inferred value of its writing and whose other elements are
    strings. *)
Definition round_trips (v : jsval) : bool :=
  match v with
  | VArr (first :: second :: others) =>
      inferred_back first && forallb is_str (second :: others)
  | VArr _ => false
  | _ => inferred_back v && negb (omitted v)
  end.

Fixpoint string_forall (p : ascii -> bool) (s : string) : bool :=
  match s with
  | EmptyString => true
  | String c r => p c && string_forall p r
  end.

(** The characters of a query string made by [buildQueryString]:
    alphanumerics, [*], [-], [.], [_], and [+], [%], [=], [&], [?]. *)
Definition query_char (c : ascii) : bool :=
  is_plain c
  || Ascii.eqb c "+" || Ascii.eqb c "%" || Ascii.eqb c "="
  || Ascii.eqb c "&" || Ascii.eqb c "?".

Definition writes_nothing (v : jsval) : bool :=
  match raws_of v with
  | [] => true
  | _ => false
  end.

(** What is read back, for a key that inherits nothing, of the value
    that an object holds for the key. *)
Definition reread (v : option jsval) : option jsval :=
  match v with
  | Some v => read_back (raws_of v)
  | None => None
  end.

(** Nothing is inherited for the key on reading a query string that
    was written from the object: [Object.prototype] does not lend the
    key, and a sequence does not lend it either, unless the object writes
    no [__proto__], which alone makes a sequence the prototype. *)
Definition inherits_nothing (key : string) (params : obj) : bool :=
  negb (object_lends key)
  && (negb (array_lends key)
      || match obj_get "__proto__" params with
         | Some v => writes_nothing v
         | None => true
         end).

(** What the type inference gives: a boolean, a number from 0 up or
    [Infinity], or a string that keeps its type. *)
Definition inferred (v : jsval) : bool :=
  match v with
  | VBool _ => true
  | VNum n => (0 <=? n)%Z && is_double n
  | VInfinity => true
  | VStr s => keeps_type s
  | _ => false
  end.

(** What [parseUrlParams] holds for a key that had no default and
    inherited nothing: an inferred value, or a sequence of two elements
    or more, the first one inferred and the others strings. *)
Definition parsed_shape (v : jsval) : bool :=
  match v with
  | VArr (first :: second :: others) =>
      inferred first && forallb is_str (second :: others)
  | VArr _ => false
  | _ => inferred v
  end.

(** The value, or its first element when it is a sequence, is a number
    that [String] does not write in digits: one from 10^21 up, or
    [Infinity]. *)
Definition beyond_digits (v : jsval) : bool :=
  match v with
  | VNum n | VArr (VNum n :: _) => (10 ^ 21 <=? n)%Z
  | VInfinity | VArr (VInfinity :: _) => true
  | _ => false
  end.

(** The mutators that [useUrlState] returns. *)
Inductive url_mutator : Type :=
  | USet (params : obj)
  | UUpdate (params : obj)
  | URemove (ks : list string)
  | UReset.

Definition call_url (defaults : option obj) (m : url_mutator)
    : M UseUrlState.T unit :=
  match m with
  | USet params => UseUrlState.set params
  | UUpdate params => UseUrlState.update params
  | URemove ks => UseUrlState.remove ks
  | UReset => UseUrlState.reset defaults
  end.

(** [state[k]] of the generic hook, whose state may be [undefined]. *)
Definition state_get (k : string) (s : UseUrlState.T) : option jsval :=
  match s with
  | Some o => obj_get k o
  | None => None
  end.
(** * Properties *)

(** ** Objects *)

Lemma obj_get_replace k v o k' :
  obj_get k' (obj_replace k v o) =
  if String.eqb k' k then (if has_key k o then Some v else None)
  else obj_get k' o.
Proof.
  unfold has_key.
  induction o as [|[k0 v0] r IH]; simpl.
  - now destruct (String.eqb k' k).
  - destruct (String.eqb_spec k k0) as [->|Hk]; simpl.
    + now destruct (String.eqb k' k0).
    + rewrite IH.
      destruct (String.eqb k' k0) eqn:E0; destruct (String.eqb k' k) eqn:E1;
        try reflexivity.
      apply String.eqb_eq in E0, E1. congruence.
Qed.

Lemma obj_get_insert_index k v o k' :
  obj_get k o = None ->
  obj_get k' (insert_index k v o) =
  if String.eqb k' k then Some v else obj_get k' o.
Proof.
  induction o as [|[k0 v0] r IH]; simpl; intros Hnone.
  - reflexivity.
  - destruct (String.eqb_spec k k0) as [->|Hk]; [discriminate|].
    destruct (is_array_index k0 && (mathInt k0 <? mathInt k)%Z); simpl.
    + rewrite (IH Hnone).
      destruct (String.eqb_spec k' k0) as [->|]; [|reflexivity].
      destruct (String.eqb_spec k0 k); congruence.
    + reflexivity.
Qed.

Lemma obj_get_snoc k v o k' :
  obj_get k' (o ++ [(k, v)])%list =
  match obj_get k' o with
  | Some x => Some x
  | None => if String.eqb k' k then Some v else None
  end.
Proof.
  induction o as [|[k0 v0] r IH]; simpl; [reflexivity|].
  now destruct (String.eqb k' k0).
Qed.

(** Reading after writing. *)
Lemma obj_get_set k v o k' :
  obj_get k' (obj_set k v o) =
  if String.eqb k' k then Some v else obj_get k' o.
Proof.
  unfold obj_set.
  destruct (has_key k o) eqn:Hhas.
  - rewrite obj_get_replace, Hhas. reflexivity.
  - assert (Hnone : obj_get k o = None).
    { unfold has_key in Hhas. now destruct (obj_get k o). }
    destruct (is_array_index k).
    + now apply obj_get_insert_index.
    + rewrite obj_get_snoc.
      destruct (String.eqb_spec k' k) as [->|].
      * now rewrite Hnone.
      * now destruct (obj_get k' o).
Qed.

Lemma obj_get_set_same k v o : obj_get k (obj_set k v o) = Some v.
Proof. now rewrite obj_get_set, String.eqb_refl. Qed.

Lemma obj_get_set_other k v o k' :
  k' <> k -> obj_get k' (obj_set k v o) = obj_get k' o.
Proof.
  intros H. rewrite obj_get_set.
  now apply String.eqb_neq in H; rewrite H.
Qed.

Lemma obj_read_set k v o k' :
  obj_read k' (obj_set k v o) =
  if String.eqb k' k then v else obj_read k' o.
Proof.
  unfold obj_read. rewrite obj_get_set. now destruct (String.eqb k' k).
Qed.

Lemma existsb_eqb_In k (l : list string) :
  existsb (String.eqb k) l = true <-> In k l.
Proof.
  rewrite existsb_exists. split.
  - intros (x & Hin & Heq). apply String.eqb_eq in Heq. now subst.
  - intros Hin. exists k. split; [assumption|apply String.eqb_refl].
Qed.

Lemma nodup_keys_NoDup l : nodup_keys l = true <-> NoDup l.
Proof.
  induction l as [|k r IH]; simpl.
  - split; [constructor|reflexivity].
  - rewrite andb_true_iff, negb_true_iff, IH. split.
    + intros [Hex Hnd]. constructor; [|assumption].
      intros Hin. apply existsb_eqb_In in Hin. congruence.
    + intros Hnd. inversion Hnd as [|? ? Hnin Hnd']; subst. split; [|assumption].
      destruct (existsb (String.eqb k) r) eqn:E; [|reflexivity].
      apply existsb_eqb_In in E. contradiction.
Qed.

Lemma obj_get_None k o : obj_get k o = None <-> ~ In k (keys o).
Proof.
  induction o as [|[k0 v0] r IH]; simpl.
  - tauto.
  - destruct (String.eqb_spec k k0) as [->|Hk].
    + split; [discriminate|]. intros H. exfalso. apply H. now left.
    + rewrite IH. split; [|tauto]. intros H [E|Hin]; [congruence|tauto].
Qed.

Lemma obj_get_In k v o : obj_get k o = Some v -> In (k, v) o.
Proof.
  induction o as [|[k0 v0] r IH]; simpl; [discriminate|].
  destruct (String.eqb_spec k k0) as [->|Hk].
  - intros [= ->]. now left.
  - intros H. right. now apply IH.
Qed.

Lemma In_obj_get k v o :
  wf_obj o = true -> In (k, v) o -> obj_get k o = Some v.
Proof.
  unfold wf_obj. rewrite nodup_keys_NoDup.
  induction o as [|[k0 v0] r IH]; simpl; [tauto|].
  intros Hnd [E|Hin].
  - injection E as -> ->. now rewrite String.eqb_refl.
  - inversion Hnd as [|? ? Hnin Hnd']; subst.
    destruct (String.eqb_spec k k0) as [->|Hk].
    + exfalso. apply Hnin. now apply (in_map fst) in Hin.
    + now apply IH.
Qed.

(** A key that [src] does not have is read from [base]. *)
Lemma obj_get_assign_absent k base src :
  obj_get k src = None ->
  obj_get k (obj_assign base src) = obj_get k base.
Proof.
  unfold obj_assign. revert base.
  induction src as [|[k0 v0] r IH]; simpl; intros base Hnone; [reflexivity|].
  destruct (String.eqb_spec k k0) as [->|Hk]; [discriminate|].
  rewrite (IH _ Hnone). now apply obj_get_set_other.
Qed.

(** A key that [src] has is read from [src]. *)
Lemma obj_get_assign_present k v base src :
  wf_obj src = true ->
  obj_get k src = Some v ->
  obj_get k (obj_assign base src) = Some v.
Proof.
  unfold obj_assign, wf_obj. revert base.
  induction src as [|[k0 v0] r IH]; simpl; intros base Hwf Hget; [discriminate|].
  apply andb_true_iff in Hwf as [Hnew Hwf].
  destruct (String.eqb_spec k k0) as [->|Hk].
  - injection Hget as ->.
    assert (Habs : obj_get k0 r = None).
    { apply obj_get_None. intros Hin.
      apply existsb_eqb_In in Hin. rewrite Hin in Hnew. discriminate. }
    change (obj_get k0 (obj_assign (obj_set k0 v base) r) = Some v).
    rewrite (obj_get_assign_absent _ _ _ Habs). apply obj_get_set_same.
  - now apply IH.
Qed.

Lemma obj_get_assign k base src :
  wf_obj src = true ->
  obj_get k (obj_assign base src) =
  match obj_get k src with
  | Some v => Some v
  | None => obj_get k base
  end.
Proof.
  intros Hwf. destruct (obj_get k src) eqn:E.
  - now apply obj_get_assign_present.
  - now apply obj_get_assign_absent.
Qed.

(** A copy has the properties of the original. *)
Lemma spread_equiv o : wf_obj o = true -> obj_equiv (spread (Some o)) o.
Proof.
  intros Hwf k. simpl. rewrite (obj_get_assign _ _ _ Hwf).
  now destruct (obj_get k o).
Qed.

Lemma obj_read_spread k o :
  wf_obj o = true -> obj_read k (spread (Some o)) = obj_read k o.
Proof. intros Hwf. unfold obj_read. now rewrite (spread_equiv o Hwf k). Qed.

Lemma keys_obj_replace k v o : keys (obj_replace k v o) = keys o.
Proof.
  induction o as [|[k0 v0] r IH]; simpl; [reflexivity|].
  destruct (String.eqb_spec k k0) as [->|]; simpl; [reflexivity|].
  now rewrite IH.
Qed.

Lemma keys_insert_index k v o x :
  In x (keys (insert_index k v o)) <-> x = k \/ In x (keys o).
Proof.
  induction o as [|[k0 v0] r IH]; simpl.
  - intuition.
  - destruct (is_array_index k0 && (mathInt k0 <? mathInt k)%Z); simpl.
    + rewrite IH. intuition.
    + intuition.
Qed.

Lemma NoDup_insert_index k v o :
  ~ In k (keys o) -> NoDup (keys o) -> NoDup (keys (insert_index k v o)).
Proof.
  induction o as [|[k0 v0] r IH]; simpl; intros Hnew Hnd.
  - constructor; [tauto|constructor].
  - inversion Hnd as [|? ? Hk0 Hr]; subst.
    destruct (is_array_index k0 && (mathInt k0 <? mathInt k)%Z); simpl.
    + constructor.
      * rewrite keys_insert_index. intros [->|Hin]; tauto.
      * apply IH; tauto.
    + constructor; [simpl; tauto|assumption].
Qed.

(** Writing a property keeps an object an object. *)
Lemma wf_obj_set k v o : wf_obj o = true -> wf_obj (obj_set k v o) = true.
Proof.
  unfold wf_obj. rewrite !nodup_keys_NoDup. intros Hnd.
  unfold obj_set. destruct (has_key k o) eqn:Hhas.
  - now rewrite keys_obj_replace.
  - assert (Hnew : ~ In k (keys o)).
    { apply obj_get_None. unfold has_key in Hhas. now destruct (obj_get k o). }
    destruct (is_array_index k).
    + now apply NoDup_insert_index.
    + unfold keys. rewrite map_app. simpl.
      pose proof (Add_app k (map fst o) []) as HA.
      rewrite app_nil_r in HA. apply (NoDup_Add HA). now split.
Qed.

Lemma wf_obj_assign base src :
  wf_obj base = true -> wf_obj (obj_assign base src) = true.
Proof.
  unfold obj_assign. revert base.
  induction src as [|[k v] r IH]; intros base Hwf; simpl; [assumption|].
  apply IH. now apply wf_obj_set.
Qed.

Lemma wf_spread o : wf_obj (spread o) = true.
Proof. destruct o; simpl; [now apply wf_obj_assign|reflexivity]. Qed.

(** ** Type inference *)

Lemma infer_true : infer "true" = VBool true.
Proof. reflexivity. Qed.

Lemma infer_false : infer "false" = VBool false.
Proof. reflexivity. Qed.

Lemma matches_digits_not_keyword s :
  matches_digits s = true ->
  String.eqb s "true" = false /\ String.eqb s "false" = false.
Proof.
  intros H. split.
  - destruct (String.eqb_spec s "true") as [->|]; [discriminate|reflexivity].
  - destruct (String.eqb_spec s "false") as [->|]; [discriminate|reflexivity].
Qed.

Lemma infer_digits s :
  matches_digits s = true -> infer s = parseInt10 s.
Proof.
  intros H. unfold infer.
  destruct (matches_digits_not_keyword s H) as [-> ->]. now rewrite H.
Qed.

Lemma infer_other s :
  s <> "true" -> s <> "false" -> matches_digits s = false ->
  infer s = VStr s.
Proof.
  intros Ht Hf Hd. unfold infer.
  apply String.eqb_neq in Ht, Hf. now rewrite Ht, Hf, Hd.
Qed.

(** The inference gives a boolean, a number or a string. *)
Lemma infer_shape s :
  is_undefined (infer s) = false /\ is_array (infer s) = false.
Proof.
  unfold infer.
  destruct (String.eqb s "true"); [now split|].
  destruct (String.eqb s "false"); [now split|].
  destruct (matches_digits s); [|now split].
  unfold parseInt10. now destruct (round_to_double (mathInt s)).
Qed.

(** Below 2^53 every integer is a number, and [parseInt] is exact. *)
Lemma round_to_double_small n :
  (n < 2 ^ 53)%Z -> round_to_double n = Some n.
Proof.
  intros H. unfold round_to_double.
  destruct (Z.ltb_spec n 9007199254740992) as [_|Hge]; [reflexivity|].
  change (2 ^ 53)%Z with 9007199254740992%Z in H. lia.
Qed.

Lemma parseInt10_small s :
  (mathInt s < 2 ^ 53)%Z -> parseInt10 s = VNum (mathInt s).
Proof.
  intros H. unfold parseInt10. now rewrite round_to_double_small.
Qed.

Lemma is_double_small n : (n < 2 ^ 53)%Z -> is_double n = true.
Proof.
  intros H. unfold is_double. rewrite round_to_double_small by assumption.
  apply Z.eqb_refl.
Qed.

Lemma is_double_round n : is_double n = true -> round_to_double n = Some n.
Proof.
  unfold is_double. destruct (round_to_double n) as [d|]; [|discriminate].
  intros H. apply Z.eqb_eq in H. now subst.
Qed.

(** ** parseUrlParams, key by key *)

Arguments parse_entry : simpl never.

Lemma absorb_defined existing raw :
  is_undefined (absorb existing raw) = false.
Proof. destruct existing; simpl; try reflexivity. apply infer_shape. Qed.

(** The values of a key that is already defined pile up behind it. *)
Lemma fold_absorb_defined existing raws :
  is_undefined existing = false ->
  fold_left absorb raws existing =
  match raws with
  | [] => existing
  | _ =>
      match existing with
      | VArr elems => VArr (elems ++ map VStr raws)
      | _ => VArr (existing :: map VStr raws)
      end
  end.
Proof.
  revert existing.
  induction raws as [|raw rest IH]; intros existing Hdef; [reflexivity|].
  simpl fold_left. rewrite IH by apply absorb_defined.
  destruct existing; try discriminate; simpl;
    destruct rest; simpl; try reflexivity;
    now rewrite <- app_assoc.
Qed.

Lemma js_set_array_own_other key elems result k :
  k <> key ->
  obj_get k (own (js_set_array key elems result)) = obj_get k (own result).
Proof.
  intros Hk. unfold js_set_array.
  destruct (negb (has_key key (own result)) && String.eqb key "__proto__");
    simpl own; [reflexivity|now apply obj_get_set_other].
Qed.

(** An entry leaves the own properties of the other keys as they are. *)
Lemma parse_entry_own_other key raw result k :
  k <> key ->
  obj_get k (own (parse_entry result (key, raw))) = obj_get k (own result).
Proof.
  intros Hk. unfold parse_entry.
  destruct (negb (is_undefined (js_get key result)));
    [destruct (js_get key result)|];
    try (now apply js_set_array_own_other).
  unfold js_set_fresh. simpl own. now apply obj_get_set_other.
Qed.

Lemma has_key_set k key v o :
  has_key k o = true -> has_key k (obj_set key v o) = true.
Proof.
  unfold has_key. rewrite obj_get_set.
  destruct (String.eqb k key); [reflexivity|trivial].
Qed.

Lemma js_set_array_has_key key elems result k :
  has_key k (own result) = true ->
  has_key k (own (js_set_array key elems result)) = true.
Proof.
  intros Hk. unfold js_set_array.
  destruct (negb (has_key key (own result)) && String.eqb key "__proto__");
    simpl own; [assumption|now apply has_key_set].
Qed.

(** An own property stays one. *)
Lemma parse_entry_has_key key raw result k :
  has_key k (own result) = true ->
  has_key k (own (parse_entry result (key, raw))) = true.
Proof.
  intros Hk. unfold parse_entry.
  destruct (negb (is_undefined (js_get key result)));
    [destruct (js_get key result)|];
    try (now apply js_set_array_has_key).
  unfold js_set_fresh. simpl own. now apply has_key_set.
Qed.

(** Only an entry named [__proto__] can replace the prototype. *)
Lemma parse_entry_proto key raw result :
  key <> "__proto__" -> proto (parse_entry result (key, raw)) = proto result.
Proof.
  intros Hk. apply String.eqb_neq in Hk. unfold parse_entry, js_set_array.
  rewrite Hk, andb_false_r.
  destruct (negb (is_undefined (js_get key result)));
    [destruct (js_get key result)|]; reflexivity.
Qed.

Lemma inherited_unlent p k :
  object_lends k = false ->
  p = ProtoObject \/ array_lends k = false ->
  inherited p k = VUndefined.
Proof.
  unfold object_lends. intros Hobj Hp.
  apply orb_false_iff in Hobj as [Hobj Hmeth].
  apply orb_false_iff in Hobj as [Hproto Hctor].
  assert (Hfrom : from_object_prototype k = VUndefined).
  { unfold from_object_prototype. now rewrite Hctor, Hmeth. }
  unfold inherited. rewrite Hproto.
  destruct p as [|elems]; [exact Hfrom|].
  destruct Hp as [Hp|Harr]; [discriminate|].
  unfold array_lends in Harr.
  apply orb_false_iff in Harr as [Harr Hnames].
  apply orb_false_iff in Harr as [Hindex Hlength].
  unfold from_array. now rewrite Hindex, Hlength, Hctor, Hnames.
Qed.

(** For a settled key, [result[key]] is the own property, or
    [undefined]. *)
Lemma settled_get k result l :
  settled k result l -> js_get k result = obj_read k (own result).
Proof.
  intros Hs. unfold js_get, obj_read.
  destruct (obj_get k (own result)) eqn:E; [reflexivity|].
  destruct Hs as [Hown|[Hobj Hp]].
  - unfold has_key in Hown. rewrite E in Hown. discriminate.
  - apply inherited_unlent; [assumption|].
    destruct Hp as [[Hp _]|Ha]; [now left|now right].
Qed.

Lemma js_set_array_get key elems result :
  has_key key (own result) = true \/ key <> "__proto__" ->
  obj_get key (own (js_set_array key elems result)) = Some (VArr elems).
Proof.
  intros H. unfold js_set_array.
  assert (E : negb (has_key key (own result)) && String.eqb key "__proto__"
              = false).
  { destruct H as [H|H]; [now rewrite H|].
    apply String.eqb_neq in H. now rewrite H, andb_false_r. }
  rewrite E. simpl own. apply obj_get_set_same.
Qed.

Lemma settled_writable k result l :
  settled k result l ->
  has_key k (own result) = true \/ k <> "__proto__".
Proof.
  intros [H|[Hobj _]]; [now left|right].
  intros ->. discriminate Hobj.
Qed.

(** An entry of a settled key makes the own property absorb its raw
    value. *)
Lemma parse_entry_same key raw result l :
  settled key result l ->
  obj_get key (own (parse_entry result (key, raw))) =
  Some (absorb (obj_read key (own result)) raw).
Proof.
  intros Hs. unfold parse_entry.
  rewrite (settled_get _ _ _ Hs).
  pose proof (settled_writable _ _ _ Hs) as Hw.
  unfold absorb.
  destruct (obj_read key (own result)) eqn:E; simpl negb; cbv iota;
    try (now apply js_set_array_get).
  unfold js_set_fresh. simpl own. apply obj_get_set_same.
Qed.

Lemma settled_step k result key raw l :
  settled k result ((key, raw) :: l) ->
  settled k (parse_entry result (key, raw)) l.
Proof.
  intros [Hown|[Hobj Hp]].
  - left. now apply parse_entry_has_key.
  - destruct Hp as [[Hp Hl]|Ha].
    + simpl in Hl. apply orb_false_iff in Hl as [Hkey Hl].
      right. split; [assumption|left]. split; [|assumption].
      rewrite parse_entry_proto; [assumption|].
      intros ->. discriminate Hkey.
    + right. split; [assumption|now right].
Qed.

(** What [parseUrlParams] holds for a settled key [k]: the value it
    started from, having absorbed the raw values of [k] in their
    order. *)
Lemma fold_parse_entry_get k l result :
  settled k result l ->
  obj_get k (own (fold_left parse_entry l result)) =
  match values_of k l with
  | [] => obj_get k (own result)
  | raws => Some (fold_left absorb raws (obj_read k (own result)))
  end.
Proof.
  revert result.
  induction l as [|[key raw] r IH]; intros result Hs; [reflexivity|].
  simpl fold_left. rewrite (IH _ (settled_step _ _ _ _ _ Hs)).
  unfold values_of. simpl filter.
  destruct (String.eqb_spec k key) as [E|Hk]; simpl.
  - subst key. fold (values_of k r).
    assert (Hread : obj_read k (own (parse_entry result (k, raw))) =
                    absorb (obj_read k (own result)) raw).
    { unfold obj_read at 1. now rewrite (parse_entry_same _ _ _ _ Hs). }
    rewrite Hread, (parse_entry_same _ _ _ _ Hs).
    now destruct (values_of k r).
  - fold (values_of k r). unfold obj_read.
    now rewrite (parse_entry_own_other _ _ _ _ Hk).
Qed.

(** A key without occurrence keeps what it had. *)
Lemma fold_parse_entry_absent k l result :
  values_of k l = [] ->
  obj_get k (own (fold_left parse_entry l result)) = obj_get k (own result).
Proof.
  revert result.
  induction l as [|[key raw] r IH]; intros result Hv; [reflexivity|].
  unfold values_of in Hv. simpl in Hv. simpl fold_left.
  destruct (String.eqb_spec k key) as [E|Hk]; [discriminate|].
  rewrite (IH _ Hv). now apply parse_entry_own_other.
Qed.

Lemma parseUrlParams_get k defaults w :
  settled k {| own := spread defaults; proto := ProtoObject |}
    (getUrlParams w) ->
  obj_get k (parseUrlParams defaults w) =
  match values_of k (getUrlParams w) with
  | [] => obj_get k (spread defaults)
  | raws => Some (fold_left absorb raws (obj_read k (spread defaults)))
  end.
Proof. intros Hs. exact (fold_parse_entry_get _ _ _ Hs). Qed.

(** A key that the defaults have. *)
Lemma parseUrlParams_get_own k defaults w :
  has_key k (spread defaults) = true ->
  obj_get k (parseUrlParams defaults w) =
  match values_of k (getUrlParams w) with
  | [] => obj_get k (spread defaults)
  | raws => Some (fold_left absorb raws (obj_read k (spread defaults)))
  end.
Proof. intros H. apply parseUrlParams_get. now left. Qed.

(** A key for which nothing is inherited. *)
Lemma parseUrlParams_get_unlent k defaults w :
  unlent k (getUrlParams w) = true ->
  obj_get k (parseUrlParams defaults w) =
  match values_of k (getUrlParams w) with
  | [] => obj_get k (spread defaults)
  | raws => Some (fold_left absorb raws (obj_read k (spread defaults)))
  end.
Proof.
  intros H. apply parseUrlParams_get. right.
  unfold unlent in H. apply andb_true_iff in H as [Hobj Hp].
  apply negb_true_iff in Hobj. split; [assumption|].
  apply orb_true_iff in Hp as [Hp|Hp]; apply negb_true_iff in Hp.
  - left. now split.
  - now right.
Qed.

Lemma parseUrlParams_absent k defaults w :
  values_of k (getUrlParams w) = [] ->
  obj_get k (parseUrlParams defaults w) = obj_get k (spread defaults).
Proof. intros H. exact (fold_parse_entry_absent _ _ _ H). Qed.

Lemma wf_js_set_array key elems result :
  wf_obj (own result) = true ->
  wf_obj (own (js_set_array key elems result)) = true.
Proof.
  intros Hwf. unfold js_set_array.
  destruct (negb (has_key key (own result)) && String.eqb key "__proto__");
    simpl own; [assumption|now apply wf_obj_set].
Qed.

Lemma wf_parse_entry result p :
  wf_obj (own result) = true -> wf_obj (own (parse_entry result p)) = true.
Proof.
  destruct p as [key raw]. intros Hwf. unfold parse_entry.
  destruct (negb (is_undefined (js_get key result)));
    [destruct (js_get key result)|];
    try (now apply wf_js_set_array).
  unfold js_set_fresh. simpl own. now apply wf_obj_set.
Qed.

(** The result of [parseUrlParams] holds a key at most once. *)
Lemma wf_parseUrlParams defaults w : wf_obj (parseUrlParams defaults w) = true.
Proof.
  unfold parseUrlParams.
  assert (H : wf_obj (own {| own := spread defaults; proto := ProtoObject |})
              = true) by apply wf_spread.
  revert H. generalize {| own := spread defaults; proto := ProtoObject |}.
  induction (getUrlParams w) as [|p l IH]; intros result Hwf; simpl;
    [assumption|].
  apply IH. now apply wf_parse_entry.
Qed.

(** ** Decimal digits *)

Lemma digit_cases (d : N) :
  (d < 10)%N ->
  d = 0%N \/ d = 1%N \/ d = 2%N \/ d = 3%N \/ d = 4%N \/
  d = 5%N \/ d = 6%N \/ d = 7%N \/ d = 8%N \/ d = 9%N.
Proof. lia. Qed.

Lemma digit_char_is_digit d : (d < 10)%N -> is_digit (digit_char d) = true.
Proof.
  intros H.
  destruct (digit_cases d H) as [->|[->|[->|[->|[->|[->|[->|[->|[->| ->]]]]]]]]];
    reflexivity.
Qed.

Lemma digit_value_char d : (d < 10)%N -> digit_value (digit_char d) = Z.of_N d.
Proof.
  intros H.
  destruct (digit_cases d H) as [->|[->|[->|[->|[->|[->|[->|[->|[->| ->]]]]]]]]];
    reflexivity.
Qed.

Lemma mod10_lt n : (n mod 10 < 10)%N.
Proof. apply N.mod_lt. discriminate. Qed.

Lemma all_digits_digits_onto fuel n acc :
  all_digits acc = true -> all_digits (digits_onto fuel n acc) = true.
Proof.
  revert n acc.
  induction fuel as [|f IH]; intros n acc Hacc; simpl; [assumption|].
  assert (Hd : all_digits (String (digit_char (n mod 10)) acc) = true).
  { simpl. now rewrite digit_char_is_digit by apply mod10_lt. }
  destruct (n <? 10)%N; [assumption|]. now apply IH.
Qed.

Lemma digits_onto_nonempty fuel n acc :
  is_empty acc = false -> is_empty (digits_onto fuel n acc) = false.
Proof.
  revert n acc.
  induction fuel as [|f IH]; intros n acc Hacc; simpl; [assumption|].
  destruct (n <? 10)%N; [reflexivity|]. now apply IH.
Qed.

(** Reading the digits written for [n] gives [n] back, when the fuel
    covers its digits. *)
Lemma parseInt_digits_onto fuel n rest :
  (n < 2 ^ N.of_nat fuel)%N ->
  parseInt_from 0 (digits_onto fuel n rest) = parseInt_from (Z.of_N n) rest.
Proof.
  revert n rest.
  induction fuel as [|f IH]; intros n rest Hn.
  - simpl in Hn. assert (n = 0%N) as -> by lia. reflexivity.
  - simpl digits_onto.
    destruct (N.ltb_spec n 10) as [Hlt|Hge].
    + simpl. rewrite digit_value_char by apply mod10_lt.
      rewrite N.mod_small by assumption. reflexivity.
    + rewrite IH.
      * simpl. rewrite digit_value_char by apply mod10_lt.
        f_equal. rewrite N2Z.inj_mod, N2Z.inj_div. simpl Z.of_N.
        pose proof (Z.div_mod (Z.of_N n) 10). lia.
      * rewrite Nat2N.inj_succ, N.pow_succ_r' in Hn.
        apply N.Div0.div_lt_upper_bound. lia.
Qed.

Lemma fuel_covers n : (n < 2 ^ N.of_nat (S (N.to_nat (N.log2 n))))%N.
Proof.
  rewrite Nat2N.inj_succ, N2Nat.id.
  destruct n as [|p]; [reflexivity|].
  apply N.log2_spec. reflexivity.
Qed.

Lemma mathInt_decimal n : mathInt (decimal_of_N n) = Z.of_N n.
Proof.
  unfold mathInt, decimal_of_N.
  rewrite parseInt_digits_onto by apply fuel_covers. reflexivity.
Qed.

Lemma matches_digits_decimal n : matches_digits (decimal_of_N n) = true.
Proof.
  unfold decimal_of_N.
  pose proof (all_digits_digits_onto (S (N.to_nat (N.log2 n))) n "" eq_refl) as Hall.
  assert (Hne : is_empty (digits_onto (S (N.to_nat (N.log2 n))) n "") = false).
  { simpl. destruct (n <? 10)%N; [reflexivity|].
    now apply digits_onto_nonempty. }
  unfold matches_digits.
  destruct (digits_onto (S (N.to_nat (N.log2 n))) n ""); [discriminate|assumption].
Qed.

(** A number that is [q * 2^e] with 53 bits in [q] is a double. *)
Lemma round_exact q e :
  (2 ^ 52 <= q < 2 ^ 53)%Z -> (1 <= e)%Z -> (q * 2 ^ e < 2 ^ 1024)%Z ->
  round_to_double (q * 2 ^ e) = Some (q * 2 ^ e)%Z.
Proof.
  intros Hq He Hm.
  assert (Hpow : (2 <= 2 ^ e)%Z).
  { change 2%Z with (2 ^ 1)%Z at 1. apply Z.pow_le_mono_r; lia. }
  assert (Hlog : Z.log2 (q * 2 ^ e) = (52 + e)%Z).
  { rewrite Z.log2_mul_pow2 by lia.
    rewrite (Z.log2_unique q 52); lia. }
  unfold round_to_double.
  destruct (Z.ltb_spec (q * 2 ^ e) 9007199254740992) as [Hlt|_].
  { change 9007199254740992%Z with (2 ^ 53)%Z in Hlt. nia. }
  rewrite Hlog. replace (52 + e - 52)%Z with e by lia.
  rewrite Z.shiftr_div_pow2 by lia.
  rewrite Z.div_mul by lia.
  rewrite !Z.shiftl_mul_pow2 by lia.
  rewrite Z.sub_diag.
  assert (Hhalf : (0 < 2 ^ (e - 1))%Z) by (apply Z.pow_pos_nonneg; lia).
  destruct (Z.ltb_spec (2 ^ (e - 1)) 0) as [|_]; [lia|].
  destruct (Z.eqb_spec 0 (2 ^ (e - 1))) as [|_]; [lia|].
  rewrite andb_false_l, orb_false_l.
  destruct (Z.leb_spec (2 ^ 1024) (q * 2 ^ e)); [lia|reflexivity].
Qed.

(** Rounding gives a double: a number that rounding leaves as it is. *)
Lemma round_to_double_idempotent n d :
  (0 <= n)%Z -> round_to_double n = Some d ->
  round_to_double d = Some d /\ (0 <= d)%Z.
Proof.
  intros Hn H. unfold round_to_double in H.
  destruct (Z.ltb_spec n 9007199254740992) as [Hlt|Hge].
  { injection H as <-. split; [|assumption].
    unfold round_to_double.
    now destruct (Z.ltb_spec n 9007199254740992); [|lia]. }
  change 9007199254740992%Z with (2 ^ 53)%Z in Hge.
  assert (Hlog : (53 <= Z.log2 n)%Z).
  { change 53%Z with (Z.log2 (2 ^ 53)). now apply Z.log2_le_mono. }
  set (e := (Z.log2 n - 52)%Z) in *.
  assert (He : (1 <= e)%Z) by (unfold e; lia).
  destruct (Z.log2_spec n) as [Hlo Hhi]; [lia|].
  replace (Z.log2 n) with (52 + e)%Z in Hlo by (unfold e; lia).
  replace (Z.succ (Z.log2 n)) with (53 + e)%Z in Hhi by (unfold e; lia).
  rewrite !Z.pow_add_r in Hlo, Hhi by lia.
  assert (Hpow : (0 < 2 ^ e)%Z) by (apply Z.pow_pos_nonneg; lia).
  rewrite Z.shiftr_div_pow2 in H by lia.
  set (q := (n / 2 ^ e)%Z) in *.
  assert (Hq : (2 ^ 52 <= q < 2 ^ 53)%Z).
  { unfold q. split.
    - apply Z.div_le_lower_bound; lia.
    - apply Z.div_lt_upper_bound; lia. }
  set (q' := if (_ || _)%bool then (q + 1)%Z else q) in H.
  assert (Hq' : (q' = q \/ q' = q + 1)%Z).
  { unfold q'. destruct (_ || _)%bool; auto. }
  clearbody q'.
  rewrite Z.shiftl_mul_pow2 in H by lia.
  destruct (Z.leb_spec (2 ^ 1024) (q' * 2 ^ e)) as [|Hm]; [discriminate|].
  injection H as <-.
  split; [|nia].
  destruct (Z.eq_dec q' (2 ^ 53)) as [->|Hne].
  - replace (2 ^ 53 * 2 ^ e)%Z with (2 ^ 52 * 2 ^ (e + 1))%Z
      by (rewrite Z.pow_add_r by lia; change (2 ^ 53)%Z with (2 ^ 52 * 2)%Z;
          change (2 ^ 1)%Z with 2%Z; lia).
    apply round_exact; [lia|lia|].
    rewrite Z.pow_add_r by lia. change (2 ^ 1)%Z with 2%Z.
    change (2 ^ 53)%Z with (2 ^ 52 * 2)%Z in Hm. lia.
  - apply round_exact; [lia|lia|assumption].
Qed.

(** The decimal chosen for a number is read as that number. *)
Lemma shortest_at_reads k x s p :
  shortest_at k x = Some (s, p) -> reads_as s p x = true.
Proof.
  unfold shortest_at.
  set (q := (digit_count x - k)%Z).
  destruct (reads_as (x / 10 ^ q) q x) eqn:Elo;
    destruct (reads_as (x / 10 ^ q + 1) q x) eqn:Ehi;
    try discriminate;
    repeat match goal with
           | |- context [if ?b then _ else _] => destruct b
           end;
    intros [= <- <-]; assumption.
Qed.

Lemma shortest_from_reads fuel k x :
  is_double x = true ->
  reads_as (fst (shortest_from fuel k x)) (snd (shortest_from fuel k x)) x
  = true.
Proof.
  intros Hd. revert k. induction fuel as [|f IH]; intros k; simpl.
  - unfold reads_as. rewrite Z.mul_1_r.
    rewrite (is_double_round _ Hd). apply Z.eqb_refl.
  - destruct (shortest_at k x) as [[s p]|] eqn:E.
    + exact (shortest_at_reads _ _ _ _ E).
    + apply IH.
Qed.

(** A number from 2^53 to 10^21, written and read by [parseInt], is
    that number. *)
Lemma parseInt10_digits_form n :
  (2 ^ 53 <= n)%Z -> is_double n = true ->
  matches_digits (digits_form n) = true /\ parseInt10 (digits_form n) = VNum n.
Proof.
  intros Hn Hd. unfold digits_form.
  pose proof (shortest_from_reads 17 1%Z n Hd) as Hr.
  destruct (shortest_from 17 1%Z n) as [s p]. simpl in Hr.
  split; [apply matches_digits_decimal|].
  unfold reads_as in Hr.
  destruct (round_to_double (s * 10 ^ p)) as [d|] eqn:E; [|discriminate].
  apply Z.eqb_eq in Hr. subst d.
  assert (Hpos : (0 <= s * 10 ^ p)%Z).
  { destruct (Z.lt_ge_cases (s * 10 ^ p) 0) as [Hneg|]; [|assumption].
    unfold round_to_double in E.
    destruct (Z.ltb_spec (s * 10 ^ p) 9007199254740992) as [_|Hge].
    - injection E as E. assert (0 < 2 ^ 53)%Z by reflexivity. lia.
    - assert (0 < 9007199254740992)%Z by reflexivity. lia. }
  unfold parseInt10. rewrite mathInt_decimal, Z2N.id by assumption.
  now rewrite E.
Qed.

(** A number from 0 up that is written in digits, written and
    inferred, is that number. *)
Lemma infer_number n :
  (0 <= n)%Z -> (n < 10 ^ 21)%Z -> is_double n = true ->
  infer (number_to_string n) = VNum n.
Proof.
  intros Hn Hlt Hd. unfold number_to_string, magnitude_to_string.
  destruct (Z.ltb_spec n 0) as [|_]; [lia|].
  destruct (Z.ltb_spec n 9007199254740992) as [Hsmall|Hbig].
  - rewrite infer_digits by apply matches_digits_decimal.
    unfold parseInt10. rewrite mathInt_decimal, Z2N.id by assumption.
    now rewrite (is_double_round _ Hd).
  - destruct (Z.ltb_spec n (10 ^ 21)) as [_|]; [|lia].
    destruct (parseInt10_digits_form n Hbig Hd) as [Hm Hp].
    now rewrite infer_digits.
Qed.

(** ** Claims on the codec's parser *)

(** C5, as it is written, fails on digits that write an integer which
    is not a number: [9007199254740993] is read as [9007199254740992]. *)
Lemma corresponding_integer_counterexample :
  matches_digits "9007199254740993" = true
  /\ mathInt "9007199254740993" = 9007199254740993%Z
  /\ infer "9007199254740993" = VNum 9007199254740992
  /\ infer "9007199254740993" <> VNum (mathInt "9007199254740993").
Proof.
  split; [reflexivity|]. split; [reflexivity|]. split; [reflexivity|].
  discriminate.
Qed.

(** C5, amended. The decision table of the type inference, which covers
    every raw value: ["true"] and ["false"] become booleans; a string of
    digits becomes the number that [parseInt] makes of the integer it
    writes, which is that integer whenever it is below 2^53, and the
    nearest double (or [Infinity]) beyond; anything else stays a string.
    A key for which [result[key]] is [undefined] when a raw value arrives
    holds the inferred value of that raw value; so does, in the result of
    [parseUrlParams], a key that occurs once, has no defined default and
    inherits nothing. [parseUrlParams] has a result whatever the raw
    values are. *)
Theorem infer_decision_table :
  infer "true" = VBool true
  /\ infer "false" = VBool false
  /\ (forall s, matches_digits s = true -> (mathInt s < 2 ^ 53)%Z ->
        infer s = VNum (mathInt s))
  /\ (forall s, matches_digits s = true ->
        infer s = match round_to_double (mathInt s) with
                  | Some d => VNum d
                  | None => VInfinity
                  end)
  /\ (forall n, (0 <= n)%Z -> (n < 2 ^ 53)%Z ->
        infer (number_to_string n) = VNum n)
  /\ (forall s, s <> "true" -> s <> "false" -> matches_digits s = false ->
        infer s = VStr s)
  /\ (forall result key raw,
        js_get key result = VUndefined ->
        obj_get key (own (parse_entry result (key, raw))) = Some (infer raw))
  /\ (forall defaults w key raw,
        unlent key (getUrlParams w) = true ->
        obj_read key (spread defaults) = VUndefined ->
        values_of key (getUrlParams w) = [raw] ->
        obj_get key (parseUrlParams defaults w) = Some (infer raw)).
Proof.
  repeat split.
  - intros s Hd Hs. rewrite (infer_digits _ Hd). now apply parseInt10_small.
  - intros s Hd. now rewrite (infer_digits _ Hd).
  - intros n Hn Hs. apply infer_number; [assumption| |now apply is_double_small].
    apply Z.lt_trans with (2 ^ 53)%Z; [assumption|reflexivity].
  - apply infer_other.
  - intros result key raw Hundef. unfold parse_entry, js_set_fresh.
    rewrite Hundef. simpl. apply obj_get_set_same.
  - intros defaults w key raw Hun Hundef Hvals.
    rewrite (parseUrlParams_get_unlent _ _ _ Hun), Hvals, Hundef. reflexivity.
Qed.

Lemma infer_decision_table_witness :
  infer "2024" = VNum 2024
  /\ infer "007" = VNum 7
  /\ infer "-5" = VStr "-5"
  /\ infer "True" = VStr "True"
  /\ infer "18014398509481985" = VNum 18014398509481984
  /\ obj_get "q" (parseUrlParams None (window_at "?q=12&r=true")) =
     Some (VNum 12).
Proof.
  destruct infer_decision_table
    as (_ & _ & Hdig & Hbig & _ & Hstr & _ & Hparse).
  split; [exact (Hdig "2024" eq_refl eq_refl)|].
  split; [exact (Hdig "007" eq_refl eq_refl)|].
  split; [apply (Hstr "-5"); [discriminate|discriminate|reflexivity]|].
  split; [apply (Hstr "True"); [discriminate|discriminate|reflexivity]|].
  split; [exact (Hbig "18014398509481985" eq_refl)|].
  exact (Hparse None (window_at "?q=12&r=true") "q" "12"
           eq_refl eq_refl eq_refl).
Defined.

Lemma spread_absent key defaults :
  default_of key defaults = None -> obj_get key (spread defaults) = None.
Proof.
  destruct defaults as [d|]; simpl; intros H; [|reflexivity].
  now rewrite obj_get_assign_absent.
Qed.

Lemma spread_present key d dflt :
  wf_obj d = true -> obj_get key d = Some dflt ->
  obj_read key (spread (Some d)) = dflt.
Proof.
  intros Hwf Hget. unfold obj_read. simpl.
  now rewrite (obj_get_assign_present _ _ _ _ Hwf Hget).
Qed.

Lemma spread_has_key key d dflt :
  wf_obj d = true -> obj_get key d = Some dflt ->
  has_key key (spread (Some d)) = true.
Proof.
  intros Hwf Hget. unfold has_key. simpl.
  now rewrite (obj_get_assign_present _ _ _ _ Hwf Hget).
Qed.

(** C4, on the code. A key that [defaults] does not have, for which
    nothing is inherited, and that the query string gives twice or more
    holds the sequence of its raw values in the order of the query
    string, the first one inferred and the others as strings;
    [tag=a&tag=b&tag=c] over empty defaults gives [{tag: ["a","b","c"]}].
    For a key that [Object.prototype] lends the code does otherwise:
    [toString=a&toString=b] gives the inherited function followed by
    ["a"] and ["b"], no value being inferred. *)
Theorem repeated_key_aggregation :
  (forall defaults w key first second others,
     unlent key (getUrlParams w) = true ->
     default_of key defaults = None ->
     values_of key (getUrlParams w) = first :: second :: others ->
     obj_get key (parseUrlParams defaults w) =
     Some (VArr (infer first :: VStr second :: map VStr others)))
  /\ (forall w,
        search (here w) = "tag=a&tag=b&tag=c"
        \/ search (here w) = "?tag=a&tag=b&tag=c" ->
        parseUrlParams (Some []) w =
        [("tag", VArr [VStr "a"; VStr "b"; VStr "c"])])
  /\ (forall w,
        search (here w) = "?toString=a&toString=b" ->
        default_of "toString" (Some []) = None
        /\ values_of "toString" (getUrlParams w) = ["a"; "b"]
        /\ parseUrlParams (Some []) w =
           [("toString",
             VArr [VNative (NativeFunction "toString"); VStr "a"; VStr "b"])]).
Proof.
  split; [|split].
  - intros defaults w key first second others Hun Habsent Hvals.
    rewrite (parseUrlParams_get_unlent _ _ _ Hun), Hvals.
    unfold obj_read. rewrite (spread_absent _ _ Habsent).
    simpl fold_left.
    rewrite fold_absorb_defined by apply absorb_defined.
    destruct (infer_shape first) as [Hu Ha].
    destruct (infer first); try discriminate; simpl; now destruct others.
  - intros w [Hq|Hq]; unfold parseUrlParams, getUrlParams; now rewrite Hq.
  - intros w Hq. unfold parseUrlParams, getUrlParams. rewrite Hq.
    repeat split.
Qed.

Lemma repeated_key_aggregation_witness :
  obj_get "n" (parseUrlParams (Some [("page", VNum 1)])
                 (window_at "?n=10&page=2&n=20&n=true")) =
  Some (VArr [VNum 10; VStr "20"; VStr "true"])
  /\ parseUrlParams (Some []) (window_at "tag=a&tag=b&tag=c") =
     [("tag", VArr [VStr "a"; VStr "b"; VStr "c"])]
  /\ obj_get "toString"
       (parseUrlParams (Some []) (window_at "?toString=a&toString=b")) =
     Some (VArr [VNative (NativeFunction "toString"); VStr "a"; VStr "b"]).
Proof.
  destruct repeated_key_aggregation as (Hgen & Htag & Hlent).
  split; [|split].
  - exact (Hgen (Some [("page", VNum 1)])
             (window_at "?n=10&page=2&n=20&n=true")
             "n" "10" "20" ["true"] eq_refl eq_refl eq_refl).
  - exact (Htag (window_at "tag=a&tag=b&tag=c") (or_introl eq_refl)).
  - destruct (Hlent (window_at "?toString=a&toString=b") eq_refl)
      as (_ & _ & Hres).
    now rewrite Hres.
Defined.

(** C3, as it is written, fails when the default is itself a sequence:
    with defaults [{tag: ["a"]}] and the query [?tag=b] the result holds
    [["a","b"]] for [tag], and not the sequence whose first element is
    the default [["a"]]. *)
Lemma default_sequence_counterexample :
  let d := [("tag", VArr [VStr "a"])] in
  let w := window_at "?tag=b" in
  wf_obj d = true
  /\ obj_get "tag" d = Some (VArr [VStr "a"])
  /\ values_of "tag" (getUrlParams w) = ["b"]
  /\ obj_get "tag" (parseUrlParams (Some d) w) =
     Some (VArr [VStr "a"; VStr "b"])
  /\ obj_get "tag" (parseUrlParams (Some d) w) <>
     Some (VArr (VArr [VStr "a"] :: map VStr ["b"])).
Proof. repeat split. discriminate. Qed.

(** C3, amended. A default that is not [undefined] is not overwritten by
    the query string: when the key occurs there, even once, the result
    holds a sequence, which is the default followed by the raw
    occurrences when the default is not a sequence, and the elements of
    the default followed by the raw occurrences when it is one. With no
    defaults of the caller, [parseTableParams] on a query whose [page] is
    [3] holds [[1, "3"]] for [page]. *)
Theorem defaults_not_overwritten :
  (forall d w key dflt raws,
     wf_obj d = true ->
     obj_get key d = Some dflt ->
     is_undefined dflt = false ->
     values_of key (getUrlParams w) = raws ->
     raws <> [] ->
     obj_get key (parseUrlParams (Some d) w) =
     Some (match dflt with
           | VArr elems => VArr (elems ++ map VStr raws)
           | _ => VArr (dflt :: map VStr raws)
           end))
  /\ (forall w,
        values_of "page" (getUrlParams w) = ["3"] ->
        obj_get "page" (parseTableParams None w) =
        Some (VArr [VNum 1; VStr "3"])).
Proof.
  split.
  - intros d w key dflt raws Hwf Hget Hdef Hvals Hne.
    destruct raws as [|raw others]; [congruence|].
    rewrite (parseUrlParams_get_own _ _ _ (spread_has_key _ _ _ Hwf Hget)).
    rewrite Hvals, (spread_present _ _ _ Hwf Hget).
    now rewrite (fold_absorb_defined _ _ Hdef).
  - intros w Hvals. unfold parseTableParams.
    rewrite parseUrlParams_get_own by reflexivity.
    rewrite Hvals. reflexivity.
Qed.

Lemma defaults_not_overwritten_witness :
  obj_get "page" (parseUrlParams (Some [("page", VNum 1); ("tag", VArr [VStr "a"])])
                    (window_at "?page=3&tag=b")) =
  Some (VArr [VNum 1; VStr "3"])
  /\ obj_get "page" (parseTableParams None (window_at "?page=3")) =
     Some (VArr [VNum 1; VStr "3"]).
Proof.
  split.
  - apply (proj1 defaults_not_overwritten
             [("page", VNum 1); ("tag", VArr [VStr "a"])]
             (window_at "?page=3&tag=b") "page" (VNum 1) ["3"]);
      try reflexivity.
    discriminate.
  - exact (proj2 defaults_not_overwritten (window_at "?page=3") eq_refl).
Defined.

(** ** The serializer and the parser of URLSearchParams *)

Lemma plus_to_space_app a b :
  plus_to_space (a ++ b) = plus_to_space a ++ plus_to_space b.
Proof. induction a as [|c a IH]; simpl; [reflexivity|now rewrite IH]. Qed.

Lemma has_char_app c a b : has_char c (a ++ b) = has_char c a || has_char c b.
Proof.
  induction a as [|c' a IH]; simpl; [reflexivity|].
  now rewrite IH, orb_assoc.
Qed.

(** A fact about one byte is checked on the 256 bytes. *)
Ltac each_byte c := destruct c as [[] [] [] [] [] [] [] []]; reflexivity.

(** One byte, written and read back, whatever follows it. *)
Lemma decode_encode_byte c rest :
  percent_decode (plus_to_space (encode_byte c) ++ rest) =
  String c (percent_decode rest).
Proof. each_byte c. Qed.

Lemma encode_byte_no_amp c : has_char "&" (encode_byte c) = false.
Proof. each_byte c. Qed.

Lemma encode_byte_no_eq c : has_char "=" (encode_byte c) = false.
Proof. each_byte c. Qed.

Lemma decode_urlencode s : decode_component (urlencode s) = s.
Proof.
  unfold decode_component.
  induction s as [|c s IH]; simpl; [reflexivity|].
  rewrite plus_to_space_app, decode_encode_byte. now rewrite IH.
Qed.

Lemma urlencode_no_amp s : has_char "&" (urlencode s) = false.
Proof.
  induction s as [|c s IH]; simpl; [reflexivity|].
  now rewrite has_char_app, encode_byte_no_amp, IH.
Qed.

Lemma urlencode_no_eq s : has_char "=" (urlencode s) = false.
Proof.
  induction s as [|c s IH]; simpl; [reflexivity|].
  now rewrite has_char_app, encode_byte_no_eq, IH.
Qed.

Lemma cut_at_first sep a b :
  has_char sep a = false ->
  cut_at sep (a ++ String sep b) = Some (a, b).
Proof.
  induction a as [|c a IH]; simpl; intros H.
  - now rewrite Ascii.eqb_refl.
  - apply orb_false_iff in H as [Hc Ha].
    rewrite Ascii.eqb_sym, Hc. now rewrite (IH Ha).
Qed.

Lemma parse_encode_pair p : parse_pair (encode_pair p) = p.
Proof.
  destruct p as [n v]. unfold parse_pair, encode_pair. simpl fst. simpl snd.
  change (urlencode n ++ "=" ++ urlencode v)
    with (urlencode n ++ String "=" (urlencode v)).
  rewrite cut_at_first by apply urlencode_no_eq.
  now rewrite !decode_urlencode.
Qed.

Lemma encode_pair_no_amp p : has_char "&" (encode_pair p) = false.
Proof.
  unfold encode_pair.
  rewrite !has_char_app, !urlencode_no_amp. reflexivity.
Qed.

Lemma is_empty_app a b : is_empty (a ++ b) = is_empty a && is_empty b.
Proof. now destruct a. Qed.

Lemma encode_pair_nonempty p : is_empty (encode_pair p) = false.
Proof.
  unfold encode_pair. rewrite !is_empty_app. simpl. apply andb_false_r.
Qed.

Lemma split_on_none sep s : has_char sep s = false -> split_on sep s = [s].
Proof.
  induction s as [|c s IH]; simpl; intros H; [reflexivity|].
  apply orb_false_iff in H as [Hc Hs].
  rewrite Ascii.eqb_sym, Hc. now rewrite (IH Hs).
Qed.

Lemma split_on_first sep a b :
  has_char sep a = false ->
  split_on sep (a ++ String sep b) = a :: split_on sep b.
Proof.
  induction a as [|c a IH]; simpl; intros H.
  - now rewrite Ascii.eqb_refl.
  - apply orb_false_iff in H as [Hc Ha].
    rewrite Ascii.eqb_sym, Hc. now rewrite (IH Ha).
Qed.

(** Joining with [&] and splitting at [&] gives the segments back. *)
Lemma split_join segs :
  segs <> [] ->
  Forall (fun seg => has_char "&" seg = false) segs ->
  split_on "&" (join_with "&" segs) = segs.
Proof.
  induction segs as [|x r IH]; intros Hne Hall; [congruence|].
  inversion Hall as [|? ? Hx Hr]; subst.
  destruct r as [|y r'].
  - simpl. now apply split_on_none.
  - change (join_with "&" (x :: y :: r'))
      with (x ++ String "&" (join_with "&" (y :: r'))).
    rewrite split_on_first by assumption.
    rewrite IH; [reflexivity|discriminate|assumption].
Qed.

Lemma parse_urlencoded_toString l : parse_urlencoded (usp_toString l) = l.
Proof.
  unfold parse_urlencoded, usp_toString.
  destruct l as [|p l]; [reflexivity|].
  rewrite split_join.
  - rewrite forallb_filter_id.
    + rewrite map_map. rewrite <- (map_id (p :: l)) at 2.
      apply map_ext. apply parse_encode_pair.
    + apply forallb_forall. intros seg Hin.
      apply in_map_iff in Hin as (q & <- & _).
      now rewrite encode_pair_nonempty.
  - discriminate.
  - apply Forall_forall. intros seg Hin.
    apply in_map_iff in Hin as (q & <- & _).
    apply encode_pair_no_amp.
Qed.

Lemma usp_toString_empty l : is_empty (usp_toString l) = true <-> l = [].
Proof.
  split; [|now intros ->].
  destruct l as [|p l]; [reflexivity|].
  unfold usp_toString. simpl map.
  destruct (map encode_pair l); simpl.
  - now rewrite encode_pair_nonempty.
  - now rewrite is_empty_app, encode_pair_nonempty.
Qed.

(** What [buildQueryString] writes, [URLSearchParams] reads back. *)
Lemma usp_of_buildQueryString params :
  usp_of_string (buildQueryString params) = build_params params.
Proof.
  unfold buildQueryString.
  destruct (is_empty (usp_toString (build_params params))) eqn:E.
  - apply usp_toString_empty in E. now rewrite E.
  - change (parse_urlencoded (usp_toString (build_params params)) =
            build_params params).
    apply parse_urlencoded_toString.
Qed.

(** ** buildQueryString *)

Lemma usp_has_In name l : usp_has name l = true <-> In name (map fst l).
Proof.
  induction l as [|[n v] r IH]; simpl.
  - split; [discriminate|tauto].
  - rewrite orb_true_iff, IH, String.eqb_eq. split; intros [H|H]; auto.
Qed.

Lemma usp_set_first_names name val l n :
  In n (map fst (usp_set_first name val l)) -> In n (map fst l).
Proof.
  induction l as [|[n0 v0] r IH]; simpl; [tauto|].
  destruct (String.eqb name n0); simpl.
  - intros [H|H]; [now left|right].
    unfold usp_remove in H. apply in_map_iff in H as (p & <- & Hp).
    apply filter_In in Hp as [Hp _]. now apply in_map.
  - intros [H|H]; [now left|right; now apply IH].
Qed.

Lemma usp_set_names name val l n :
  In n (map fst (usp_set name val l)) -> n = name \/ In n (map fst l).
Proof.
  unfold usp_set, usp_append. destruct (usp_has name l).
  - intros H. right. now apply usp_set_first_names in H.
  - rewrite map_app, in_app_iff. simpl. intros [H|[H|[]]]; auto.
Qed.

Lemma fold_append_names key (elems : list jsval) l n :
  In n (map fst (fold_left (fun sp v => usp_append key (jsString v) sp)
                   elems l)) ->
  n = key \/ In n (map fst l).
Proof.
  revert l. induction elems as [|e r IH]; intros l; simpl; [auto|].
  intros H. apply IH in H as [H|H]; [auto|].
  unfold usp_append in H. rewrite map_app, in_app_iff in H. simpl in H.
  destruct H as [H|[H|[]]]; auto.
Qed.

Lemma build_entry_names sp key v n :
  In n (map fst (build_entry sp (key, v))) ->
  In n (map fst sp) \/ (n = key /\ omitted v = false).
Proof.
  destruct v as [| | b | z | s | elems | | h]; simpl; auto.
  - intros H. apply usp_set_names in H as [H|H]; auto.
  - intros H. apply usp_set_names in H as [H|H]; auto.
  - destruct s as [|c s]; [auto|].
    intros H. apply usp_set_names in H as [H|H]; auto.
  - intros H. apply fold_append_names in H as [H|H]; auto.
  - intros H. apply usp_set_names in H as [H|H]; auto.
  - intros H. apply usp_set_names in H as [H|H]; auto.
Qed.

(** Every name among the pairs belongs to a property that is not left
    out. *)
Lemma fold_build_entry_names params sp n :
  In n (map fst (fold_left build_entry params sp)) ->
  In n (map fst sp) \/ exists v, In (n, v) params /\ omitted v = false.
Proof.
  revert sp. induction params as [|[k v] r IH]; intros sp; simpl; [auto|].
  intros H. apply IH in H as [H|(v' & Hin & Hv')].
  - apply build_entry_names in H as [H|[-> Hv]]; [auto|].
    right. exists v. auto.
  - right. exists v'. auto.
Qed.

(** C6. A key whose value is [undefined], [null] or the empty string,
    a key that the object does not have included, gives no pair: none
    among the pairs that are serialized, none in the query string
    read back. *)
Theorem omitted_keys_not_serialized :
  forall params key,
    wf_obj params = true ->
    omitted (obj_read key params) = true ->
    usp_has key (build_params params) = false
    /\ usp_has key (usp_of_string (buildQueryString params)) = false.
Proof.
  intros params key Hwf Hom.
  rewrite usp_of_buildQueryString.
  assert (H : usp_has key (build_params params) = false); [|now split].
  destruct (usp_has key (build_params params)) eqn:E; [|reflexivity].
  apply usp_has_In in E. unfold build_params in E.
  apply fold_build_entry_names in E as [[]|(v & Hin & Hv)].
  apply (In_obj_get _ _ _ Hwf) in Hin.
  unfold obj_read in Hom. rewrite Hin in Hom. congruence.
Qed.

Lemma omitted_keys_not_serialized_witness :
  let params := [("page", VNum 2); ("search", VStr ""); ("sortField", VUndefined);
                 ("owner", VNull); ("tag", VArr [VStr "a"; VStr ""])] in
  buildQueryString params = "?page=2&tag=a&tag="
  /\ usp_has "search" (usp_of_string (buildQueryString params)) = false
  /\ usp_has "owner" (usp_of_string (buildQueryString params)) = false
  /\ usp_has "missing" (usp_of_string (buildQueryString params)) = false.
Proof.
  intros params. split; [reflexivity|].
  split; [|split].
  - exact (proj2 (omitted_keys_not_serialized params "search" eq_refl eq_refl)).
  - exact (proj2 (omitted_keys_not_serialized params "owner" eq_refl eq_refl)).
  - exact (proj2 (omitted_keys_not_serialized params "missing" eq_refl eq_refl)).
Defined.

(** ** Round trip *)

Arguments build_entry : simpl never.

Lemma faithful_not_omitted v : faithful_value v = true -> omitted v = false.
Proof.
  destruct v as [| | b | z | s | elems | | h]; try discriminate; try reflexivity.
  destruct s; [|reflexivity].
  intros H. vm_compute in H. discriminate H.
Qed.

Lemma build_entry_faithful sp key v :
  faithful_value v = true ->
  usp_has key sp = false ->
  build_entry sp (key, v) = (sp ++ [written (key, v)])%list.
Proof.
  intros Hv Hnew. pose proof (faithful_not_omitted v Hv) as Hom.
  destruct v as [| | b | z | s | elems | | h]; try discriminate;
    try (unfold build_entry, usp_set; now rewrite Hnew).
  destruct s; [discriminate|]. unfold build_entry, usp_set. now rewrite Hnew.
Qed.

Lemma fold_build_entry_faithful params sp :
  NoDup (map fst sp ++ keys params) ->
  forallb (fun kv => faithful_value (snd kv)) params = true ->
  fold_left build_entry params sp = (sp ++ map written params)%list.
Proof.
  revert sp. induction params as [|[k v] r IH]; intros sp Hnd Hall; simpl.
  - now rewrite app_nil_r.
  - simpl in Hall. apply andb_true_iff in Hall as [Hv Hall].
    rewrite build_entry_faithful.
    + rewrite IH; [now rewrite <- app_assoc| |assumption].
      rewrite map_app. simpl. rewrite <- app_assoc. exact Hnd.
    + assumption.
    + destruct (usp_has k sp) eqn:E; [|reflexivity].
      apply usp_has_In in E. simpl in Hnd.
      apply NoDup_remove_2 in Hnd. exfalso. apply Hnd.
      apply in_or_app. now left.
Qed.

Lemma build_params_faithful params :
  wf_obj params = true ->
  forallb (fun kv => faithful_value (snd kv)) params = true ->
  build_params params = map written params.
Proof.
  intros Hwf Hall. unfold build_params.
  rewrite fold_build_entry_faithful; [reflexivity| |assumption].
  simpl. now apply nodup_keys_NoDup.
Qed.

Lemma values_of_absent k (params : obj) :
  obj_get k params = None -> values_of k (map written params) = [].
Proof.
  unfold values_of.
  induction params as [|[k0 v0] r IH]; simpl; [reflexivity|].
  destruct (String.eqb k k0); [discriminate|assumption].
Qed.

Lemma values_of_written k (params : obj) :
  wf_obj params = true ->
  values_of k (map written params) =
  match obj_get k params with
  | Some v => [jsString v]
  | None => []
  end.
Proof.
  intros Hwf. destruct (obj_get k params) eqn:E;
    [|now apply values_of_absent].
  revert Hwf E. unfold wf_obj.
  induction params as [|[k0 v0] r IH]; simpl; [discriminate|].
  intros Hwf E. apply andb_true_iff in Hwf as [Hnew Hwf].
  unfold values_of. simpl.
  destruct (String.eqb_spec k k0) as [->|Hk]; simpl.
  - injection E as ->. f_equal.
    apply values_of_absent. apply obj_get_None. intros Hin.
    apply existsb_eqb_In in Hin. rewrite Hin in Hnew. discriminate.
  - now apply IH.
Qed.

Lemma infer_jsString v : faithful_value v = true -> infer (jsString v) = v.
Proof.
  destruct v as [| | b | z | s | elems | | h]; try discriminate.
  - now destruct b.
  - unfold faithful_value. simpl plain_value. intros H.
    apply andb_true_iff in H as [Hpos H].
    apply andb_true_iff in H as [Hlt Hd].
    apply infer_number; [now apply Z.leb_le|now apply Z.ltb_lt|assumption].
  - unfold faithful_value, stays_string. simpl. intros H.
    apply andb_true_iff in H as [_ H].
    apply andb_true_iff in H as [H Hd].
    apply andb_true_iff in H as [H Hf].
    apply andb_true_iff in H as [_ Ht].
    apply negb_true_iff in Hd, Hf, Ht.
    apply infer_other; [now apply String.eqb_neq|now apply String.eqb_neq|assumption].
Qed.

Lemma faithful_In k v (params : obj) :
  forallb (fun kv => faithful_value (snd kv)) params = true ->
  In (k, v) params -> faithful_value v = true.
Proof.
  intros Hall Hin. rewrite forallb_forall in Hall. exact (Hall _ Hin).
Qed.

(** C1, as it is written, fails on a string that the type inference
    reads as a number: [{q: "42"}] is written [?q=42] and read back as
    [{q: 42}]. *)
Lemma roundtrip_counterexample :
  let P := [("q", VStr "42")] in
  wf_obj P = true
  /\ forallb (fun kv => plain_value (snd kv)) P = true
  /\ buildQueryString P = "?q=42"
  /\ parseUrlParams (Some []) (window_at (buildQueryString P)) =
     [("q", VNum 42)]
  /\ ~ obj_equiv (parseUrlParams (Some []) (window_at (buildQueryString P))) P.
Proof.
  repeat split. intros H. specialize (H "q"). discriminate H.
Qed.

Lemma keys_written (params : obj) : map fst (map written params) = keys params.
Proof. unfold keys. rewrite map_map. now apply map_ext. Qed.

(** When [Object.prototype] lends none of the keys, no pair is named
    [__proto__], and nothing is inherited for a key of the object. *)
Lemma unlent_written k (params : obj) :
  forallb (fun kv => negb (object_lends (fst kv))) params = true ->
  In k (keys params) ->
  unlent k (map written params) = true.
Proof.
  intros Hkeys Hin. rewrite forallb_forall in Hkeys.
  unfold unlent. apply andb_true_iff. split.
  - unfold keys in Hin. apply in_map_iff in Hin as (kv & <- & Hkv).
    exact (Hkeys kv Hkv).
  - apply orb_true_iff. left. apply negb_true_iff.
    destruct (usp_has "__proto__" (map written params)) eqn:E; [|reflexivity].
    apply usp_has_In in E. rewrite keys_written in E.
    unfold keys in E. apply in_map_iff in E as ([k' v'] & Hk' & Hkv).
    simpl in Hk'. subst k'. specialize (Hkeys _ Hkv). discriminate Hkeys.
Qed.

(** C1, amended. For every parameter object whose keys are not names
    that [Object.prototype] lends and whose values are booleans, integers
    from 0 up that are numbers below 10^21 (such is every integer up to
    2^53), or strings without [&] and [=] that are not empty, not
    ["true"], not ["false"] and not made of digits only, [parseUrlParams]
    over empty defaults, on the query string that [buildQueryString]
    makes of the object, returns an object with the same properties. *)
Theorem roundtrip_faithful :
  forall P w,
    wf_obj P = true ->
    forallb (fun kv => faithful_value (snd kv)) P = true ->
    forallb (fun kv => negb (object_lends (fst kv))) P = true ->
    search (here w) = buildQueryString P ->
    obj_equiv (parseUrlParams (Some []) w) P
    /\ wf_obj (parseUrlParams (Some []) w) = true.
Proof.
  intros P w Hwf Hall Hkeys Hsearch. split; [|apply wf_parseUrlParams].
  intros k.
  assert (Hurl : getUrlParams w = map written P).
  { unfold getUrlParams.
    rewrite Hsearch, usp_of_buildQueryString.
    now apply build_params_faithful. }
  destruct (obj_get k P) as [v|] eqn:E.
  - rewrite parseUrlParams_get_unlent.
    + rewrite Hurl, (values_of_written _ _ Hwf), E.
      simpl. f_equal. apply infer_jsString.
      apply (faithful_In k v P Hall). now apply obj_get_In.
    + rewrite Hurl. apply (unlent_written _ _ Hkeys).
      apply obj_get_In in E. now apply (in_map fst) in E.
  - rewrite parseUrlParams_absent; [reflexivity|].
    now rewrite Hurl, (values_of_written _ _ Hwf), E.
Qed.

Lemma roundtrip_faithful_witness :
  let P := [("page", VNum 3); ("search", VStr "red shoes 50%");
            ("inStock", VBool true); ("sortOrder", VStr "asc")] in
  buildQueryString P = "?page=3&search=red+shoes+50%25&inStock=true&sortOrder=asc"
  /\ obj_equiv (parseUrlParams (Some []) (window_at (buildQueryString P))) P.
Proof.
  intros P. split; [reflexivity|].
  exact (proj1 (roundtrip_faithful P (window_at (buildQueryString P))
                  eq_refl eq_refl eq_refl eq_refl)).
Defined.

(** ** The table hook *)

Lemma table_defaults_get k d :
  wf_obj d = true ->
  obj_get k (table_defaults (Some d)) =
  match obj_get k d with
  | Some v => Some v
  | None => obj_get k [("page", VNum 1); ("pageSize", VNum 10)]
  end.
Proof. intros Hwf. unfold table_defaults. now rewrite obj_get_assign. Qed.

(** Every mutator ends in [setAndSync], or does the same steps itself:
    the state it builds is set, and written with [setTableParams]. *)
Lemma call_sets_and_syncs defaults m st :
  win (run (call defaults m) st) =
  setTableParams (state (run (call defaults m) st)) None (win st).
Proof. destruct m; reflexivity. Qed.

Lemma setTableParams_replaces params w :
  setTableParams params None w =
  defer_scroll (scrollY w)
    (replaceState {| pathname := pathname (here w);
                     search := buildQueryString params;
                     hash := hash (here w) |} w).
Proof. reflexivity. Qed.

(** C2, as it is written, fails: [setPage] makes one call on
    [window.history], a [replaceState]; no entry is added. *)
Lemma table_mutators_push_counterexample :
  let st := UseTableUrlState.init None (window_at "") in
  let st' := run (call None (SetPage 2)) st in
  calls (win st') =
    [ReplaceState {| pathname := "/items";
                     search := "?page=2&pageSize=10";
                     hash := "" |}]
  /\ behind (win st') = behind (win st)
  /\ history_length (win st') = history_length (win st)
  /\ forall url, calls (win st') <> (calls (win st) ++ [PushState url])%list.
Proof. repeat split. intros url. discriminate. Qed.

(** C2, amended. Every mutator of the table hook ([setPage],
    [setPageSize], [setSearch], [setSort], [setFilter], [reset]) writes
    the state it has built to the URL with [setTableParams], whose
    default is [replace: true]: one [replaceState] of the current entry
    with the query string of that state; no entry is added and the
    length of the history does not change. *)
Theorem table_mutators_replace :
  forall defaults m st,
    let st' := run (call defaults m) st in
    let url := {| pathname := pathname (here (win st));
                  search := buildQueryString (state st');
                  hash := hash (here (win st)) |} in
    win st' = setTableParams (state st') None (win st)
    /\ calls (win st') = (calls (win st) ++ [ReplaceState url])%list
    /\ here (win st') = url
    /\ behind (win st') = behind (win st)
    /\ ahead (win st') = ahead (win st)
    /\ history_length (win st') = history_length (win st).
Proof.
  intros defaults m st st' url. subst st' url.
  rewrite call_sets_and_syncs, setTableParams_replaces.
  repeat split.
Qed.

Lemma setPage_state n st :
  state (run (UseTableUrlState.setPage n) st) =
  obj_set "page" (VNum n) (spread (Some (state st))).
Proof. reflexivity. Qed.

Lemma setPageSize_state n st :
  state (run (UseTableUrlState.setPageSize n) st) =
  obj_set "pageSize" (VNum n)
    (obj_set "page" (VNum 1) (spread (Some (state st)))).
Proof. reflexivity. Qed.

Lemma setSearch_state s st :
  state (run (UseTableUrlState.setSearch s) st) =
  obj_set "search" (if is_empty s then VUndefined else VStr s)
    (obj_set "page" (VNum 1) (spread (Some (state st)))).
Proof. reflexivity. Qed.

Lemma setSort_state f o st :
  state (run (UseTableUrlState.setSort f o) st) =
  obj_set "sortOrder" (sort_order_value o)
    (obj_set "sortField" (VStr f) (spread (Some (state st)))).
Proof. reflexivity. Qed.

Lemma setFilter_state k v st :
  state (run (UseTableUrlState.setFilter k v) st) =
  obj_set k (match v with VStr EmptyString => VUndefined | _ => v end)
    (obj_set "page" (VNum 1) (spread (Some (state st)))).
Proof. reflexivity. Qed.

(** C7, as it is written, fails for the filter key [page]:
    [setFilter("page", 7)] leaves [page] at 7. *)
Lemma page_reset_counterexample :
  let st := UseTableUrlState.init None (window_at "?q=a") in
  obj_read "page" (state (run (UseTableUrlState.setFilter "page" (VNum 7)) st))
  = VNum 7
  /\ obj_read "page" (state (run (UseTableUrlState.setFilter "page" (VNum 7)) st))
     <> VNum 1.
Proof. split; [reflexivity|discriminate]. Qed.

(** C7, amended. From every table state [setPageSize(n)] and
    [setSearch(s)] give a state whose [page] is 1, and so does
    [setFilter(k, v)] for every key [k] other than [page]; [setSearch]
    and [setFilter] hold [undefined] for an empty string; [setSort] leaves
    [page] as it was; after [setPage(5)] then [setSearch("x")], [page] is
    1 and [search] is ["x"]. *)
Theorem page_reset_rule :
  (forall st n,
     let s' := state (run (UseTableUrlState.setPageSize n) st) in
     obj_read "page" s' = VNum 1 /\ obj_read "pageSize" s' = VNum n)
  /\ (forall st s,
        let s' := state (run (UseTableUrlState.setSearch s) st) in
        obj_read "page" s' = VNum 1
        /\ obj_read "search" s' = if is_empty s then VUndefined else VStr s)
  /\ (forall st k v,
        let s' := state (run (UseTableUrlState.setFilter k v) st) in
        obj_read k s' = match v with
                        | VStr EmptyString => VUndefined
                        | _ => v
                        end
        /\ (k <> "page" -> obj_read "page" s' = VNum 1))
  /\ (forall st f o,
        wf_obj (state st) = true ->
        obj_read "page" (state (run (UseTableUrlState.setSort f o) st)) =
        obj_read "page" (state st))
  /\ (forall st,
        let s' := state (run (UseTableUrlState.setSearch "x")
                           (run (UseTableUrlState.setPage 5) st)) in
        obj_read "page" s' = VNum 1 /\ obj_read "search" s' = VStr "x").
Proof.
  split; [|split; [|split; [|split]]].
  - intros st n s'. subst s'. rewrite setPageSize_state.
    now rewrite !obj_read_set.
  - intros st s s'. subst s'. rewrite setSearch_state.
    now rewrite !obj_read_set.
  - intros st k v s'. subst s'. rewrite setFilter_state. split.
    + now rewrite obj_read_set, String.eqb_refl.
    + intros Hk. rewrite !obj_read_set.
      apply String.eqb_neq in Hk. rewrite String.eqb_sym in Hk.
      now rewrite Hk.
  - intros st f o Hwf. rewrite setSort_state, !obj_read_set.
    now apply (obj_read_spread "page").
  - intros st s'. subst s'. rewrite setSearch_state.
    now rewrite !obj_read_set.
Qed.

Lemma page_reset_rule_witness :
  let st := UseTableUrlState.init None (window_at "?tab=open") in
  let at5 := run (UseTableUrlState.setPage 5) st in
  obj_read "page" (state at5) = VNum 5
  /\ obj_read "page"
       (state (run (UseTableUrlState.setFilter "owner" (VStr "ann")) at5)) = VNum 1
  /\ obj_read "page" (state (run (UseTableUrlState.setSort "name" desc) at5)) = VNum 5.
Proof.
  intros st at5.
  destruct page_reset_rule as (_ & _ & Hfilter & Hsort & _).
  split; [reflexivity|]. split.
  - apply (proj2 (Hfilter at5 "owner" (VStr "ann"))). discriminate.
  - rewrite (Hsort at5 "name" desc eq_refl). reflexivity.
Defined.

(** C10. Whatever the defaults, the state after [reset()] of the table
    hook is [{page: 1, pageSize: 10, ...defaults}], and after a second
    [reset()] it is that again; the URL is the same after both. That
    state holds, for each key, the value that the defaults give it, and
    for a key that they do not have what [{page: 1, pageSize: 10}] holds:
    [page] is 1 and [pageSize] is 10 unless the defaults have them, and
    without defaults the state is [{page: 1, pageSize: 10}]. *)
Theorem table_reset_idempotent :
  forall defaults st,
    let once := run (UseTableUrlState.reset defaults) st in
    let twice := run (UseTableUrlState.reset defaults) once in
    state once = table_defaults defaults
    /\ state twice = table_defaults defaults
    /\ state twice = state once
    /\ here (win twice) = here (win once)
    /\ (wf_defaults defaults = true ->
        forall k,
          obj_get k (state twice) =
          match default_of k defaults with
          | Some v => Some v
          | None => obj_get k [("page", VNum 1); ("pageSize", VNum 10)]
          end)
    /\ (default_of "page" defaults = None ->
        obj_get "page" (state once) = Some (VNum 1)
        /\ obj_get "page" (state twice) = Some (VNum 1))
    /\ (default_of "pageSize" defaults = None ->
        obj_get "pageSize" (state once) = Some (VNum 10)
        /\ obj_get "pageSize" (state twice) = Some (VNum 10))
    /\ (defaults = None ->
        state once = [("page", VNum 1); ("pageSize", VNum 10)]
        /\ state twice = [("page", VNum 1); ("pageSize", VNum 10)]).
Proof.
  intros defaults st once twice.
  assert (Honce : state once = table_defaults defaults) by reflexivity.
  assert (Htwice : state twice = table_defaults defaults) by reflexivity.
  assert (Habsent : forall k,
            default_of k defaults = None ->
            obj_get k (table_defaults defaults) =
            obj_get k [("page", VNum 1); ("pageSize", VNum 10)]).
  { intros k Hk. unfold table_defaults.
    destruct defaults as [d|]; [|reflexivity].
    now apply obj_get_assign_absent. }
  repeat split; try (rewrite ?Honce, ?Htwice; now apply Habsent).
  - intros Hwf k. rewrite Htwice.
    destruct defaults as [d|]; [now apply table_defaults_get|reflexivity].
  - rewrite Honce. now subst defaults.
  - rewrite Htwice. now subst defaults.
Qed.

Lemma table_reset_idempotent_witness :
  let defaults := Some [("pageSize", VNum 20); ("status", VStr "open")] in
  let st := run (call defaults (SetPage 4))
              (UseTableUrlState.init defaults (window_at "?q=x")) in
  let twice := run (UseTableUrlState.reset defaults)
                 (run (UseTableUrlState.reset defaults) st) in
  obj_get "page" (state st) = Some (VNum 4)
  /\ obj_get "page" (state twice) = Some (VNum 1)
  /\ obj_get "pageSize" (state twice) = Some (VNum 20)
  /\ obj_get "status" (state twice) = Some (VStr "open")
  /\ obj_get "q" (state twice) = None
  /\ state (run (UseTableUrlState.reset None) st) =
     [("page", VNum 1); ("pageSize", VNum 10)].
Proof.
  intros defaults st twice.
  destruct (table_reset_idempotent defaults st)
    as (_ & _ & _ & _ & Hget & Hpage & _ & _).
  destruct (table_reset_idempotent None st)
    as (_ & _ & _ & _ & _ & _ & _ & Hnone).
  split; [reflexivity|].
  split; [exact (proj2 (Hpage eq_refl))|].
  split; [exact (Hget eq_refl "pageSize")|].
  split; [exact (Hget eq_refl "status")|].
  split; [exact (Hget eq_refl "q")|].
  exact (proj1 (Hnone eq_refl)).
Defined.

(** ** Navigation and the generic hook *)

Lemma go_back_history_length w : history_length (go_back w) = history_length w.
Proof.
  unfold go_back, history_length.
  destruct (behind w) eqn:E; simpl; rewrite ?E; simpl; lia.
Qed.

Lemma go_forward_history_length w :
  history_length (go_forward w) = history_length w.
Proof.
  unfold go_forward, history_length.
  destruct (ahead w) eqn:E; simpl; rewrite ?E; simpl; lia.
Qed.

(** C8. The handler of [popstate], in the generic hook and in the table
    hook, sets the state to the result of parsing the current query
    string over the defaults and leaves the window as it is: no call on
    [window.history], the same entries, the same length. Going back and
    handling the event keeps the length of the history too. *)
Theorem popstate_never_writes_history :
  (forall defaults st,
     let st' := run (UseUrlState.handlePopState defaults) st in
     state st' = Some (parseUrlParams defaults (win st))
     /\ win st' = win st
     /\ calls (win st') = calls (win st)
     /\ history_length (win st') = history_length (win st))
  /\ (forall defaults st,
        let st' := run (UseTableUrlState.handlePopState defaults) st in
        state st' = parseTableParams defaults (win st)
        /\ win st' = win st
        /\ calls (win st') = calls (win st)
        /\ history_length (win st') = history_length (win st))
  /\ (forall defaults (s : obj) w,
        let st' := run (UseTableUrlState.handlePopState defaults)
                     {| state := s; win := go_back w |} in
        state st' = parseTableParams defaults (go_back w)
        /\ calls (win st') = calls w
        /\ history_length (win st') = history_length w).
Proof.
  repeat split.
  - cbn. unfold go_back. now destruct (behind w).
  - cbn. apply go_back_history_length.
Qed.

Lemma setUrlParams_pushes params w :
  setUrlParams params None w =
  defer_scroll (scrollY w)
    (pushState {| pathname := pathname (here w);
                  search := buildQueryString params;
                  hash := hash (here w) |} w).
Proof. reflexivity. Qed.

(** [set] of the generic hook sets the state and pushes it: one entry
    more behind the current one. *)
Lemma set_pushes params st :
  state (run (UseUrlState.set params) st) = Some params
  /\ win (run (UseUrlState.set params) st) =
     setUrlParams params None (win st)
  /\ behind (win (run (UseUrlState.set params) st)) =
     here (win st) :: behind (win st).
Proof. repeat split. Qed.

(** C9, on the code. With defaults, [reset()] of the generic hook sets
    the state to the defaults and pushes their query string. Without
    defaults, it pushes the query string of the empty object, and the
    state it sets is [undefined], not the empty object. *)
Theorem reset_without_defaults_leaves_undefined :
  (forall d st,
     let st' := run (UseUrlState.reset (Some d)) st in
     state st' = Some d
     /\ calls (win st') =
        (calls (win st) ++
         [PushState {| pathname := pathname (here (win st));
                       search := buildQueryString d;
                       hash := hash (here (win st)) |}])%list)
  /\ (forall st,
        let st' := run (UseUrlState.reset None) st in
        state st' = None
        /\ state st' <> Some []
        /\ calls (win st') =
           (calls (win st) ++
            [PushState {| pathname := pathname (here (win st));
                          search := "";
                          hash := hash (here (win st)) |}])%list).
Proof. repeat split. discriminate. Qed.

(** ** Invariants of the table hook *)

Lemma wf_table_defaults defaults : wf_obj (table_defaults defaults) = true.
Proof.
  unfold table_defaults. destruct defaults; [|reflexivity].
  now apply wf_obj_assign.
Qed.

Lemma wf_call defaults m st : wf_obj (state (run (call defaults m) st)) = true.
Proof.
  destruct m; simpl call.
  - rewrite setPage_state. apply wf_obj_set, wf_spread.
  - rewrite setPageSize_state. apply wf_obj_set, wf_obj_set, wf_spread.
  - rewrite setSearch_state. apply wf_obj_set, wf_obj_set, wf_spread.
  - rewrite setSort_state. apply wf_obj_set, wf_obj_set, wf_spread.
  - rewrite setFilter_state. apply wf_obj_set, wf_obj_set, wf_spread.
  - apply wf_table_defaults.
Qed.

(** The state of the table hook holds a key at most once. *)
Lemma table_reachable_wf defaults w0 st :
  table_reachable defaults w0 st -> wf_obj (state st) = true.
Proof.
  intros H. destruct H.
  - apply wf_parseUrlParams.
  - apply wf_call.
  - apply wf_parseUrlParams.
  - apply wf_parseUrlParams.
Qed.

Lemma go_back_calls w : calls (go_back w) = calls w.
Proof. unfold go_back. now destruct (behind w). Qed.

Lemma go_forward_calls w : calls (go_forward w) = calls w.
Proof. unfold go_forward. now destruct (ahead w). Qed.

(** The table hook never adds an entry to the history: what it calls on
    [window.history] is [replaceState], and the length stays. *)
Lemma table_reachable_no_push defaults w0 st :
  table_reachable defaults w0 st ->
  forallb is_replace (calls w0) = true ->
  forallb is_replace (calls (win st)) = true
  /\ history_length (win st) = history_length w0.
Proof.
  intros H Hw0. induction H as [|m st H [IHc IHl]|st H [IHc IHl]|st H [IHc IHl]].
  - now split.
  - rewrite call_sets_and_syncs, setTableParams_replaces. split.
    + simpl calls. rewrite forallb_app, IHc. reflexivity.
    + exact IHl.
  - split.
    + change (forallb is_replace (calls (go_back (win st))) = true).
      now rewrite go_back_calls.
    + change (history_length (go_back (win st)) = history_length w0).
      now rewrite go_back_history_length.
  - split.
    + change (forallb is_replace (calls (go_forward (win st))) = true).
      now rewrite go_forward_calls.
    + change (history_length (go_forward (win st)) = history_length w0).
      now rewrite go_forward_history_length.
Qed.

(** In the states that the hook reaches, [setSort] keeps [page]. *)
Lemma setSort_keeps_page defaults w0 st f o :
  table_reachable defaults w0 st ->
  obj_read "page" (state (run (UseTableUrlState.setSort f o) st)) =
  obj_read "page" (state st).
Proof.
  intros H. rewrite setSort_state, !obj_read_set.
  apply (obj_read_spread "page"), (table_reachable_wf _ _ _ H).
Qed.

(** * Further properties *)

(** ** Writing and reading back, key by key *)

Lemma fold_absorb_fresh raws :
  raws <> [] -> Some (fold_left absorb raws VUndefined) = read_back raws.
Proof.
  destruct raws as [|raw others]; [congruence|intros _].
  simpl fold_left. destruct (infer_shape raw) as [Hu Ha].
  rewrite (fold_absorb_defined _ _ Hu).
  destruct others as [|o others']; [reflexivity|].
  unfold read_back. now destruct (infer raw).
Qed.

Lemma parseUrlParams_fresh k defaults w :
  unlent k (getUrlParams w) = true ->
  default_of k defaults = None ->
  obj_get k (parseUrlParams defaults w) =
  read_back (values_of k (getUrlParams w)).
Proof.
  intros Hun Habs. rewrite (parseUrlParams_get_unlent _ _ _ Hun).
  unfold obj_read. rewrite (spread_absent _ _ Habs).
  destruct (values_of k (getUrlParams w)) as [|raw others] eqn:E;
    [reflexivity|].
  apply fold_absorb_fresh. discriminate.
Qed.

Lemma fold_append_pairs key (elems : list jsval) sp :
  fold_left (fun sp v => usp_append key (jsString v) sp) elems sp =
  (sp ++ map (fun raw => (key, raw)) (map jsString elems))%list.
Proof.
  revert sp. induction elems as [|e r IH]; intros sp; simpl.
  - now rewrite app_nil_r.
  - rewrite IH. unfold usp_append. now rewrite <- app_assoc.
Qed.

Lemma build_entry_pairs sp kv :
  usp_has (fst kv) sp = false ->
  build_entry sp kv = (sp ++ pairs_of kv)%list.
Proof.
  destruct kv as [key v]. simpl fst. intros Hnew.
  unfold build_entry, pairs_of. simpl fst. simpl snd.
  destruct v as [| | b | z | s | elems | | h]; simpl raws_of;
    try (now rewrite app_nil_r);
    try (unfold usp_set, usp_append; now rewrite Hnew).
  - destruct s; [now rewrite app_nil_r|].
    unfold usp_set, usp_append. now rewrite Hnew.
  - apply fold_append_pairs.
Qed.

Lemma pairs_of_names kv n : In n (map fst (pairs_of kv)) -> n = fst kv.
Proof.
  unfold pairs_of. rewrite map_map. simpl.
  intros H. apply in_map_iff in H as (raw & <- & _). reflexivity.
Qed.

Lemma fold_build_entry_pairs params sp :
  NoDup (keys params) ->
  (forall k, In k (keys params) -> usp_has k sp = false) ->
  fold_left build_entry params sp = (sp ++ flat_map pairs_of params)%list.
Proof.
  revert sp. induction params as [|kv r IH]; intros sp Hnd Hnew; simpl.
  - now rewrite app_nil_r.
  - inversion Hnd as [|? ? Hk Hr]; subst.
    rewrite build_entry_pairs by (apply Hnew; now left).
    rewrite IH; [now rewrite <- app_assoc|assumption|].
    intros k Hin.
    destruct (usp_has k (sp ++ pairs_of kv)%list) eqn:E; [|reflexivity].
    apply usp_has_In in E. rewrite map_app, in_app_iff in E.
    destruct E as [E|E].
    + apply usp_has_In in E. rewrite Hnew in E; [discriminate|now right].
    + apply pairs_of_names in E. subst k. contradiction.
Qed.

(** The pairs that [buildQueryString] serializes, property by
    property. *)
Lemma build_params_pairs params :
  wf_obj params = true -> build_params params = flat_map pairs_of params.
Proof.
  intros Hwf. unfold build_params.
  rewrite fold_build_entry_pairs; [reflexivity| |reflexivity].
  now apply nodup_keys_NoDup.
Qed.

Lemma values_of_app k (a b : usp) :
  values_of k (a ++ b)%list = (values_of k a ++ values_of k b)%list.
Proof. unfold values_of. now rewrite filter_app, map_app. Qed.

Lemma values_of_pairs_of k kv :
  values_of k (pairs_of kv) =
  if String.eqb k (fst kv) then raws_of (snd kv) else [].
Proof.
  unfold values_of, pairs_of.
  induction (raws_of (snd kv)) as [|raw r IH]; simpl.
  - now destruct (String.eqb k (fst kv)).
  - destruct (String.eqb k (fst kv)); simpl; [now f_equal|assumption].
Qed.

Lemma values_of_flat_absent k (params : obj) :
  obj_get k params = None -> values_of k (flat_map pairs_of params) = [].
Proof.
  induction params as [|[k0 v0] r IH]; simpl; [reflexivity|].
  destruct (String.eqb k k0) eqn:E; [discriminate|].
  intros H. rewrite values_of_app, values_of_pairs_of. simpl fst.
  rewrite E. now apply IH.
Qed.

Lemma values_of_flat k (params : obj) :
  wf_obj params = true ->
  values_of k (flat_map pairs_of params) =
  match obj_get k params with
  | Some v => raws_of v
  | None => []
  end.
Proof.
  intros Hwf. destruct (obj_get k params) as [v|] eqn:E;
    [|now apply values_of_flat_absent].
  revert Hwf E. unfold wf_obj.
  induction params as [|[k0 v0] r IH]; simpl; [discriminate|].
  intros Hwf E. apply andb_true_iff in Hwf as [Hnew Hwf].
  rewrite values_of_app, values_of_pairs_of. simpl fst. simpl snd.
  destruct (String.eqb_spec k k0) as [->|Hk].
  - injection E as ->.
    rewrite values_of_flat_absent; [now rewrite app_nil_r|].
    apply obj_get_None. intros Hin.
    apply existsb_eqb_In in Hin. rewrite Hin in Hnew. discriminate.
  - now apply IH.
Qed.

(** The raw values that a window gives for [k] when its query string
    was made by [buildQueryString]. *)
Lemma values_of_built k params w :
  wf_obj params = true ->
  search (here w) = buildQueryString params ->
  values_of k (getUrlParams w) =
  match obj_get k params with
  | Some v => raws_of v
  | None => []
  end.
Proof.
  intros Hwf Hsearch. unfold getUrlParams.
  rewrite Hsearch, usp_of_buildQueryString, build_params_pairs by assumption.
  now apply values_of_flat.
Qed.

Lemma values_of_nil_usp_has k l : values_of k l = [] -> usp_has k l = false.
Proof.
  unfold values_of. induction l as [|[n v] r IH]; simpl; [reflexivity|].
  destruct (String.eqb k n); simpl; [discriminate|exact IH].
Qed.

(** On a query string written from an object, nothing is inherited for
    a key that [inherits_nothing] accepts. *)
Lemma inherits_nothing_unlent k params w :
  wf_obj params = true ->
  search (here w) = buildQueryString params ->
  inherits_nothing k params = true ->
  unlent k (getUrlParams w) = true.
Proof.
  intros Hwf Hsearch H. unfold inherits_nothing in H. unfold unlent.
  apply andb_true_iff in H as [Hobj H]. rewrite Hobj. simpl.
  apply orb_true_iff in H as [Harr|Hproto].
  - rewrite Harr. apply orb_true_r.
  - rewrite values_of_nil_usp_has; [reflexivity|].
    rewrite (values_of_built _ _ _ Hwf Hsearch).
    destruct (obj_get "__proto__" params) as [v|]; [|reflexivity].
    unfold writes_nothing in Hproto. now destruct (raws_of v).
Qed.

Lemma search_setUrlParams params opts w :
  search (here (setUrlParams params opts w)) = buildQueryString params.
Proof.
  unfold setUrlParams.
  destruct (wants_replace opts); destruct (wants_scroll opts); reflexivity.
Qed.

(** X1. Writing an object with [buildQueryString] and reading the
    query string with [parseUrlParams], for a key without default that
    inherits nothing ([Object.prototype] does not lend it, and a sequence
    does not either unless the object writes no [__proto__]): a key that
    the object lacks, or whose value is left out, or whose value is an
    empty sequence, is absent; a value that is not a sequence, and a
    sequence of one element, come back as the inferred value of their
    writing; a longer sequence comes back as the sequence of the inferred
    first element and the writings of the others. *)
Theorem write_then_read :
  forall params defaults w k,
    wf_obj params = true ->
    default_of k defaults = None ->
    inherits_nothing k params = true ->
    search (here w) = buildQueryString params ->
    obj_get k (parseUrlParams defaults w) =
    read_back (match obj_get k params with
               | Some v => raws_of v
               | None => []
               end).
Proof.
  intros params defaults w k Hwf Habs Hk Hsearch.
  rewrite (parseUrlParams_fresh _ _ _
             (inherits_nothing_unlent _ _ _ Hwf Hsearch Hk) Habs).
  now rewrite (values_of_built k params w Hwf Hsearch).
Qed.

Lemma write_then_read_witness :
  let params := [("ids", VArr [VStr "7"]); ("tags", VArr [VStr "a"; VStr "b"]);
                 ("q", VStr ""); ("n", VNum (-3))] in
  let w := window_at (buildQueryString params) in
  search (here w) = "?ids=7&tags=a&tags=b&n=-3"
  /\ obj_get "ids" (parseUrlParams None w) = Some (VNum 7)
  /\ obj_get "tags" (parseUrlParams None w) = Some (VArr [VStr "a"; VStr "b"])
  /\ obj_get "q" (parseUrlParams None w) = None
  /\ obj_get "n" (parseUrlParams None w) = Some (VStr "-3").
Proof.
  intros params w. split; [reflexivity|].
  split; [|split; [|split]].
  - exact (write_then_read params None w "ids" eq_refl eq_refl eq_refl eq_refl).
  - exact (write_then_read params None w "tags" eq_refl eq_refl eq_refl eq_refl).
  - exact (write_then_read params None w "q" eq_refl eq_refl eq_refl eq_refl).
  - exact (write_then_read params None w "n" eq_refl eq_refl eq_refl eq_refl).
Defined.

(** ** The values that round trip *)

Lemma parseInt_from_nonneg s acc : (0 <= acc)%Z -> (0 <= parseInt_from acc s)%Z.
Proof.
  revert acc. induction s as [|c s IH]; intros acc Hacc; simpl; [assumption|].
  apply IH. unfold digit_value. lia.
Qed.

Lemma all_digits_no_plus s : all_digits s = true -> has_char "+" s = false.
Proof.
  induction s as [|c s IH]; [reflexivity|].
  intros H. change (is_digit c && all_digits s = true) in H.
  apply andb_true_iff in H as [Hc Hs].
  change (Ascii.eqb "+" c || has_char "+" s = false).
  rewrite (IH Hs).
  destruct (Ascii.eqb_spec "+" c) as [<-|]; [discriminate Hc|reflexivity].
Qed.

(** A text with a [+] in it stays a string. *)
Lemma infer_with_plus s : has_char "+" s = true -> infer s = VStr s.
Proof.
  intros H. apply infer_other.
  - intros ->. discriminate H.
  - intros ->. discriminate H.
  - destruct (matches_digits s) eqn:E; [|reflexivity].
    assert (Hall : all_digits s = true) by (destruct s; [discriminate|exact E]).
    rewrite (all_digits_no_plus _ Hall) in H. discriminate.
Qed.

Lemma infer_exponent_form x : is_str (infer (exponent_form x)) = true.
Proof.
  unfold exponent_form.
  destruct (shortest_from 17 1 x) as [s0 p0].
  destruct (drop_zeros 400 s0 p0) as [s p].
  destruct (decimal_of_N (Z.to_N s)) as [|d [|d' rest]]; [reflexivity| |].
  - rewrite infer_with_plus; [reflexivity|].
    change (Ascii.eqb "+" d
            || has_char "+" ("e+" ++ decimal_of_N
                 (Z.to_N (p + Z.of_nat (String.length (String d "")) - 1)))
            = true).
    apply orb_true_iff. now right.
  - rewrite infer_with_plus; [reflexivity|].
    set (e := decimal_of_N
                (Z.to_N (p + Z.of_nat (String.length (String d (String d' rest)))
                         - 1))).
    change (Ascii.eqb "+" d
            || has_char "+" ("." ++ String d' rest ++ "e+" ++ e) = true).
    apply orb_true_iff. right.
    rewrite !has_char_app. apply orb_true_iff. right.
    apply orb_true_iff. right. reflexivity.
Qed.

Lemma infer_negative n : (n < 0)%Z -> is_str (infer (number_to_string n)) = true.
Proof.
  intros Hn. unfold number_to_string.
  destruct (Z.ltb_spec n 0) as [_|]; [reflexivity|lia].
Qed.

Lemma infer_beyond_digits n :
  (10 ^ 21 <= n)%Z -> is_str (infer (number_to_string n)) = true.
Proof.
  intros Hn. unfold number_to_string, magnitude_to_string.
  destruct (Z.ltb_spec n 0) as [Hneg|_].
  - assert (0 < 10 ^ 21)%Z by reflexivity. lia.
  - destruct (Z.ltb_spec n 9007199254740992) as [Hsmall|_].
    { assert (9007199254740992 < 10 ^ 21)%Z by reflexivity. lia. }
    destruct (Z.ltb_spec n (10 ^ 21)) as [|_]; [lia|].
    apply infer_exponent_form.
Qed.

Lemma infer_not_native s h : infer s <> VNative h.
Proof.
  unfold infer.
  destruct (String.eqb s "true"); [discriminate|].
  destruct (String.eqb s "false"); [discriminate|].
  destruct (matches_digits s); [|discriminate].
  unfold parseInt10. destruct (round_to_double (mathInt s)); discriminate.
Qed.

Lemma infer_keeps_type s : infer s = VStr s <-> keeps_type s = true.
Proof.
  unfold infer, keeps_type.
  destruct (String.eqb s "true"); [split; discriminate|].
  destruct (String.eqb s "false"); [split; discriminate|].
  destruct (matches_digits s); [|split; reflexivity].
  split; [|discriminate].
  unfold parseInt10. destruct (round_to_double (mathInt s)); discriminate.
Qed.

(** What [parseInt] gives on digits is a number from 0 up, or
    [Infinity]. *)
Lemma parseInt10_inferred s : inferred (parseInt10 s) = true.
Proof.
  unfold parseInt10.
  destruct (round_to_double (mathInt s)) as [d|] eqn:E; [|reflexivity].
  destruct (round_to_double_idempotent (mathInt s) d) as [Hd Hpos];
    [apply parseInt_from_nonneg; lia|assumption|].
  simpl. unfold is_double. rewrite Hd, Z.eqb_refl.
  now destruct (Z.leb_spec 0 d); [|lia].
Qed.

Lemma infer_inferred raw : inferred (infer raw) = true.
Proof.
  destruct (infer raw) eqn:E;
    try (exfalso; revert E; unfold infer;
         destruct (String.eqb raw "true"); [discriminate|];
         destruct (String.eqb raw "false"); [discriminate|];
         destruct (matches_digits raw); [|discriminate];
         unfold parseInt10; destruct (round_to_double (mathInt raw));
         discriminate).
  - reflexivity.
  - rewrite <- E. unfold infer in E |- *.
    destruct (String.eqb raw "true"); [discriminate|].
    destruct (String.eqb raw "false"); [discriminate|].
    destruct (matches_digits raw); [|discriminate].
    apply parseInt10_inferred.
  - assert (Hs : infer raw = VStr raw).
    { revert E. unfold infer.
      destruct (String.eqb raw "true"); [discriminate|].
      destruct (String.eqb raw "false"); [discriminate|].
      destruct (matches_digits raw); [|reflexivity].
      unfold parseInt10. destruct (round_to_double (mathInt raw)); discriminate. }
    rewrite E in Hs. injection Hs as ->. simpl.
    apply infer_keeps_type. exact E.
  - reflexivity.
Qed.

Lemma infer_number_iff n :
  infer (number_to_string n) = VNum n
  <-> ((0 <=? n)%Z && (n <? 10 ^ 21)%Z && is_double n = true).
Proof.
  rewrite !andb_true_iff, Z.leb_le, Z.ltb_lt. split.
  - intros H.
    assert (Hpos : (0 <= n)%Z).
    { destruct (Z.lt_ge_cases n 0) as [Hneg|]; [|assumption].
      apply infer_negative in Hneg. rewrite H in Hneg. discriminate. }
    assert (Hlt : (n < 10 ^ 21)%Z).
    { destruct (Z.lt_ge_cases n (10 ^ 21)) as [|Hbig]; [assumption|].
      apply infer_beyond_digits in Hbig. rewrite H in Hbig. discriminate. }
    split; [now split|].
    pose proof (infer_inferred (number_to_string n)) as Hi.
    rewrite H in Hi. simpl in Hi.
    now apply andb_prop in Hi.
  - intros [[Hpos Hlt] Hd]. now apply infer_number.
Qed.

Lemma infer_jsString_iff e : infer (jsString e) = e <-> inferred_back e = true.
Proof.
  destruct e as [| | b | n | s | elems | | h]; simpl inferred_back.
  - split; discriminate.
  - split; discriminate.
  - split; [reflexivity|]. intros _. now destruct b.
  - apply infer_number_iff.
  - apply infer_keeps_type.
  - split; [|discriminate]. intros H.
    destruct (infer_shape (jsString (VArr elems))) as [_ Ha].
    rewrite H in Ha. discriminate.
  - split; discriminate.
  - split; [|discriminate]. intros H. now apply infer_not_native in H.
Qed.

Lemma map_VStr_jsString l :
  map VStr (map jsString l) = l <-> forallb is_str l = true.
Proof.
  induction l as [|e r IH]; simpl; [tauto|].
  rewrite andb_true_iff, <- IH. split.
  - intros H. injection H as He Hr. split; [|assumption].
    now rewrite <- He.
  - intros [He Hr]. destruct e; try discriminate. simpl. now rewrite Hr.
Qed.

(** What comes back is what was written, exactly for the values that
    [round_trips] accepts. *)
Lemma read_back_raws_of v :
  read_back (raws_of v) = Some v <-> round_trips v = true.
Proof.
  destruct v as [| | b | n | s | elems | | h].
  - split; discriminate.
  - split; discriminate.
  - change (Some (infer (jsString (VBool b))) = Some (VBool b)
            <-> round_trips (VBool b) = true).
    split; [reflexivity|]. intros _. f_equal. now apply infer_jsString_iff.
  - change (Some (infer (jsString (VNum n))) = Some (VNum n)
            <-> inferred_back (VNum n) && true = true).
    rewrite andb_true_r, <- infer_jsString_iff.
    split; [intros [= H]; exact H|intros H; f_equal; exact H].
  - destruct s as [|c s]; [split; discriminate|].
    change (Some (infer (String c s)) = Some (VStr (String c s))
            <-> keeps_type (String c s) && true = true).
    rewrite andb_true_r, <- infer_keeps_type.
    split; [intros [= H]; exact H|intros H; f_equal; exact H].
  - destruct elems as [|first [|second others]].
    + split; discriminate.
    + simpl. split; [|discriminate]. intros [= H].
      destruct (infer_shape (jsString first)) as [_ Ha].
      rewrite H in Ha. discriminate.
    + change (Some (VArr (infer (jsString first)
                            :: map VStr (map jsString (second :: others)))) =
              Some (VArr (first :: second :: others))
              <-> inferred_back first && forallb is_str (second :: others) = true).
      rewrite andb_true_iff, <- infer_jsString_iff, <- map_VStr_jsString.
      split.
      * intros [= H1 H2 H3]. split; [assumption|]. simpl. congruence.
      * intros [H1 H2]. now rewrite H1, H2.
  - split; discriminate.
  - split; [|discriminate].
    change (Some (infer (jsString (VNative h))) = Some (VNative h)
            -> round_trips (VNative h) = true).
    intros [= H]. now apply infer_not_native in H.
Qed.

(** When [Object.prototype] lends none of the keys of an object, the
    query string made of the object has no pair named [__proto__], and
    nothing is inherited for a key of the object. *)
Lemma unlent_built k params w :
  wf_obj params = true ->
  forallb (fun kv => negb (object_lends (fst kv))) params = true ->
  search (here w) = buildQueryString params ->
  In k (keys params) ->
  unlent k (getUrlParams w) = true.
Proof.
  intros Hwf Hkeys Hsearch Hin. rewrite forallb_forall in Hkeys.
  unfold unlent. apply andb_true_iff. split.
  - unfold keys in Hin. apply in_map_iff in Hin as (kv & <- & Hkv).
    exact (Hkeys kv Hkv).
  - apply orb_true_iff. left. apply negb_true_iff.
    destruct (usp_has "__proto__" (getUrlParams w)) eqn:E; [|reflexivity].
    unfold getUrlParams in E. rewrite Hsearch, usp_of_buildQueryString in E.
    apply usp_has_In in E. unfold build_params in E.
    apply fold_build_entry_names in E as [[]|(v & Hv & _)].
    specialize (Hkeys _ Hv). discriminate Hkeys.
Qed.

(** X2. The objects that round trip, exactly: for an object of unique
    keys, none of which is a name that [Object.prototype] lends,
    [parseUrlParams] without defaults returns, on the query string that
    [buildQueryString] made of the object, an object with the same
    properties if and only if every value is a boolean, an integer from
    0 up that is a number below 10^21, a non-empty string that is not
    ["true"], not ["false"] and not made of digits, or a sequence of two
    elements or more whose first element is inferred back and whose other
    elements are strings. *)
Theorem roundtrip_exactly :
  forall P defaults w,
    wf_obj P = true ->
    forallb (fun kv => negb (object_lends (fst kv))) P = true ->
    (forall k, default_of k defaults = None) ->
    search (here w) = buildQueryString P ->
    (obj_equiv (parseUrlParams defaults w) P
     <-> forallb (fun kv => round_trips (snd kv)) P = true).
Proof.
  intros P defaults w Hwf Hkeys Hnone Hsearch.
  assert (Hread : forall k v,
            obj_get k P = Some v ->
            obj_get k (parseUrlParams defaults w) = read_back (raws_of v)).
  { intros k v Hget.
    rewrite parseUrlParams_fresh; [|
      apply (unlent_built k P w Hwf Hkeys Hsearch);
      apply obj_get_In in Hget; now apply (in_map fst) in Hget
      | apply Hnone ].
    now rewrite (values_of_built k P w Hwf Hsearch), Hget. }
  split.
  - intros Heq. apply forallb_forall. intros [k v] Hin. simpl.
    apply read_back_raws_of.
    pose proof (In_obj_get _ _ _ Hwf Hin) as Hget.
    now rewrite <- (Hread k v Hget), (Heq k).
  - intros Hall k.
    destruct (obj_get k P) as [v|] eqn:E.
    + rewrite (Hread k v E). apply read_back_raws_of.
      rewrite forallb_forall in Hall.
      exact (Hall (k, v) (obj_get_In _ _ _ E)).
    + rewrite parseUrlParams_absent.
      * now apply spread_absent.
      * now rewrite (values_of_built k P w Hwf Hsearch), E.
Qed.

Lemma roundtrip_exactly_witness :
  let P := [("tags", VArr [VStr "a"; VStr "b c"]); ("page", VNum 2)] in
  let Q := [("tags", VArr [VStr "a"]); ("n", VNum (10 ^ 21))] in
  obj_equiv (parseUrlParams None (window_at (buildQueryString P))) P
  /\ buildQueryString Q = "?tags=a&n=1e%2B21"
  /\ ~ obj_equiv (parseUrlParams None (window_at (buildQueryString Q))) Q.
Proof.
  intros P Q. split; [|split; [reflexivity|]].
  - apply (proj2 (roundtrip_exactly P None (window_at (buildQueryString P))
                    eq_refl eq_refl (fun k => eq_refl) eq_refl)).
    reflexivity.
  - intros H.
    apply (proj1 (roundtrip_exactly Q None (window_at (buildQueryString Q))
                    eq_refl eq_refl (fun k => eq_refl) eq_refl)) in H.
    discriminate H.
Defined.

(** ** The shape of the query string *)

Lemma string_forall_app p a b :
  string_forall p (a ++ b) = string_forall p a && string_forall p b.
Proof.
  induction a as [|c a IH]; simpl; [reflexivity|].
  now rewrite IH, andb_assoc.
Qed.

Lemma encode_byte_query_chars c : string_forall query_char (encode_byte c) = true.
Proof. each_byte c. Qed.

Lemma urlencode_query_chars s : string_forall query_char (urlencode s) = true.
Proof.
  induction s as [|c s IH]; simpl; [reflexivity|].
  now rewrite string_forall_app, encode_byte_query_chars, IH.
Qed.

Lemma encode_pair_query_chars p : string_forall query_char (encode_pair p) = true.
Proof.
  unfold encode_pair.
  now rewrite !string_forall_app, !urlencode_query_chars.
Qed.

Lemma usp_toString_query_chars l :
  string_forall query_char (usp_toString l) = true.
Proof.
  unfold usp_toString.
  induction l as [|p l IH]; [reflexivity|].
  simpl map. simpl join_with.
  destruct (map encode_pair l) as [|q qs] eqn:E.
  - apply encode_pair_query_chars.
  - rewrite !string_forall_app, encode_pair_query_chars. exact IH.
Qed.

Lemma pairs_nil_iff (params : obj) :
  flat_map pairs_of params = []
  <-> forallb (fun kv => writes_nothing (snd kv)) params = true.
Proof.
  induction params as [|[k v] r IH]; simpl; [tauto|].
  rewrite andb_true_iff, <- IH.
  unfold pairs_of, writes_nothing. simpl. destruct (raws_of v); simpl.
  - tauto.
  - split; [discriminate|]. intros [H _]. discriminate.
Qed.

Lemma has_char_forall c p s :
  p c = false -> string_forall p s = true -> has_char c s = false.
Proof.
  intros Hc. induction s as [|c' s IH]; simpl; [reflexivity|].
  intros H. apply andb_true_iff in H as [Hc' Hs].
  rewrite (IH Hs), orb_false_r.
  destruct (Ascii.eqb_spec c c') as [->|]; [congruence|reflexivity].
Qed.

(** X3. The query string of an object of unique keys is empty exactly
    when every value is left out or is an empty sequence; it is never a
    lone [?]: when it is not empty it is [?] and one character or more.
    Its characters are alphanumerics and [* - . _ + % = & ?]: no [#], no
    space, so it cannot run into the fragment that follows it in the
    URL. *)
Theorem query_string_shape :
  forall params,
    (wf_obj params = true ->
     (buildQueryString params = ""
      <-> forallb (fun kv => writes_nothing (snd kv)) params = true))
    /\ (buildQueryString params = ""
        \/ exists c rest, buildQueryString params = String "?" (String c rest))
    /\ string_forall query_char (buildQueryString params) = true
    /\ has_char "#" (buildQueryString params) = false
    /\ has_char " " (buildQueryString params) = false.
Proof.
  intros params.
  assert (Hchars : string_forall query_char (buildQueryString params) = true).
  { unfold buildQueryString.
    destruct (is_empty (usp_toString (build_params params))); [reflexivity|].
    simpl. apply usp_toString_query_chars. }
  split; [|split; [|split; [|split]]].
  - intros Hwf. unfold buildQueryString.
    destruct (is_empty (usp_toString (build_params params))) eqn:E.
    + apply usp_toString_empty in E.
      rewrite (build_params_pairs _ Hwf) in E.
      split; [intros _|reflexivity]. now apply pairs_nil_iff.
    + split; [discriminate|]. intros Hall. exfalso.
      assert (Hnil : build_params params = []).
      { rewrite (build_params_pairs _ Hwf). now apply pairs_nil_iff. }
      rewrite Hnil in E. discriminate.
  - unfold buildQueryString.
    destruct (usp_toString (build_params params)) as [|c rest]; simpl.
    + now left.
    + right. now exists c, rest.
  - exact Hchars.
  - now apply (has_char_forall "#" query_char).
  - now apply (has_char_forall " " query_char).
Qed.

Lemma query_string_shape_witness :
  buildQueryString [("q", VStr ""); ("tags", VArr []); ("x", VNull)] = ""
  /\ buildQueryString [("q", VStr "a#b c"); ("tags", VArr [])] = "?q=a%23b+c".
Proof.
  split.
  - apply (proj1 (query_string_shape
                    [("q", VStr ""); ("tags", VArr []); ("x", VNull)]) eq_refl).
    reflexivity.
  - reflexivity.
Defined.

(** ** Defaults *)

Lemma spread_get k defaults :
  wf_defaults defaults = true ->
  obj_get k (spread defaults) = default_of k defaults.
Proof.
  destruct defaults as [d|]; simpl; intros Hwf; [|reflexivity].
  rewrite (obj_get_assign _ _ _ Hwf). now destruct (obj_get k d).
Qed.

Lemma has_key_set_same key v o : has_key key (obj_set key v o) = true.
Proof. unfold has_key. now rewrite obj_get_set_same. Qed.

(** An entry of a key other than [__proto__] leaves an own property at
    its key. *)
Lemma parse_entry_writes key raw result :
  key <> "__proto__" ->
  has_key key (own (parse_entry result (key, raw))) = true.
Proof.
  intros Hk. apply String.eqb_neq in Hk. unfold parse_entry, js_set_array.
  rewrite Hk, andb_false_r.
  destruct (negb (is_undefined (js_get key result)));
    [destruct (js_get key result)|]; apply has_key_set_same.
Qed.

Lemma fold_parse_entry_has_key k l result :
  has_key k (own result) = true ->
  has_key k (own (fold_left parse_entry l result)) = true.
Proof.
  revert result. induction l as [|[key raw] r IH]; intros result H;
    [assumption|].
  simpl fold_left. apply IH. now apply parse_entry_has_key.
Qed.

Lemma fold_parse_entry_present k l result :
  k <> "__proto__" ->
  values_of k l <> [] ->
  has_key k (own (fold_left parse_entry l result)) = true.
Proof.
  intros Hk. revert result.
  induction l as [|[key raw] r IH]; intros result Hv; [now elim Hv|].
  simpl fold_left.
  destruct (String.eqb_spec k key) as [E|Hne].
  - subst key. apply fold_parse_entry_has_key. now apply parse_entry_writes.
  - apply IH. unfold values_of in Hv. simpl in Hv.
    apply String.eqb_neq in Hne. now rewrite Hne in Hv.
Qed.

(** An entry named [__proto__] writes no own property on an object that
    has none of that name: it replaces the prototype. *)
Lemma parse_entry_proto_not_own key raw result :
  has_key "__proto__" (own result) = false ->
  has_key "__proto__" (own (parse_entry result (key, raw))) = false.
Proof.
  intros H. destruct (String.eqb_spec key "__proto__") as [E|Hne].
  - subst key. unfold parse_entry, js_get.
    assert (Hnone : obj_get "__proto__" (own result) = None).
    { unfold has_key in H. now destruct (obj_get "__proto__" (own result)). }
    rewrite Hnone. unfold inherited, js_set_array. rewrite H. simpl.
    now destruct (proto result).
  - unfold has_key. rewrite parse_entry_own_other; [exact H|].
    intros E. now subst key.
Qed.

Lemma fold_parse_entry_proto_not_own l result :
  has_key "__proto__" (own result) = false ->
  has_key "__proto__" (own (fold_left parse_entry l result)) = false.
Proof.
  revert result. induction l as [|[key raw] r IH]; intros result H;
    [assumption|].
  simpl fold_left. apply IH. now apply parse_entry_proto_not_own.
Qed.

(** X4. Defaults fill what the query string does not name: a key
    without occurrence in the query string holds its default, if it has
    one; the result lacks a key other than [__proto__] exactly when
    neither the defaults nor the query string have it, and it has a key
    [__proto__] only when the defaults have one; on an empty query string
    the result has the properties of the defaults. *)
Theorem defaults_fill_missing_keys :
  forall defaults w,
    wf_defaults defaults = true ->
    (forall k, values_of k (getUrlParams w) = [] ->
               obj_get k (parseUrlParams defaults w) = default_of k defaults)
    /\ (forall k, k <> "__proto__" ->
                  (obj_get k (parseUrlParams defaults w) = None
                   <-> default_of k defaults = None
                       /\ values_of k (getUrlParams w) = []))
    /\ (default_of "__proto__" defaults = None ->
        obj_get "__proto__" (parseUrlParams defaults w) = None)
    /\ (search (here w) = "" \/ search (here w) = "?" ->
        forall k, obj_get k (parseUrlParams defaults w) = default_of k defaults).
Proof.
  intros defaults w Hwf.
  assert (Hfill : forall k, values_of k (getUrlParams w) = [] ->
            obj_get k (parseUrlParams defaults w) = default_of k defaults).
  { intros k Hk. rewrite (parseUrlParams_absent _ _ _ Hk).
    now apply spread_get. }
  split; [exact Hfill|split; [|split]].
  - intros k Hproto. split.
    + intros Hnone.
      destruct (values_of k (getUrlParams w)) as [|raw raws] eqn:E.
      * split; [|reflexivity]. now rewrite <- (Hfill k E).
      * exfalso.
        assert (Hhas : has_key k (parseUrlParams defaults w) = true).
        { apply fold_parse_entry_present; [assumption|].
          rewrite E. discriminate. }
        unfold has_key in Hhas. rewrite Hnone in Hhas. discriminate.
    + intros [Hd Hv]. now rewrite (Hfill k Hv).
  - intros Hd.
    assert (Hhas : has_key "__proto__" (parseUrlParams defaults w) = false).
    { apply fold_parse_entry_proto_not_own. simpl own. unfold has_key.
      now rewrite (spread_get _ _ Hwf), Hd. }
    unfold has_key in Hhas.
    now destruct (obj_get "__proto__" (parseUrlParams defaults w)).
  - intros Hq k. apply Hfill. unfold getUrlParams.
    destruct Hq as [-> | ->]; reflexivity.
Qed.

Lemma defaults_fill_missing_keys_witness :
  let d := [("tab", VStr "all"); ("page", VNum 1)] in
  obj_get "tab" (parseUrlParams (Some d) (window_at "?q=x")) = Some (VStr "all")
  /\ obj_get "other" (parseUrlParams (Some d) (window_at "?q=x")) = None
  /\ obj_get "__proto__" (parseUrlParams (Some d) (window_at "?__proto__=x")) =
     None
  /\ obj_get "page" (parseUrlParams (Some d) (window_at "")) = Some (VNum 1).
Proof.
  intros d.
  destruct (defaults_fill_missing_keys (Some d) (window_at "?q=x") eq_refl)
    as (Hfill & Hkeys & _ & _).
  destruct (defaults_fill_missing_keys (Some d) (window_at "?__proto__=x")
              eq_refl) as (_ & _ & Hproto & _).
  destruct (defaults_fill_missing_keys (Some d) (window_at "") eq_refl)
    as (_ & _ & _ & Hempty).
  split; [exact (Hfill "tab" eq_refl)|].
  split; [apply (proj2 (Hkeys "other" ltac:(discriminate))); now split|].
  split; [exact (Hproto eq_refl)|].
  exact (Hempty (or_introl eq_refl) "page").
Defined.

Lemma table_defaults_default k defaults :
  wf_defaults defaults = true ->
  obj_get k (table_defaults defaults) =
  match default_of k defaults with
  | Some v => Some v
  | None => obj_get k [("page", VNum 1); ("pageSize", VNum 10)]
  end.
Proof.
  destruct defaults as [d|]; simpl default_of; intros Hwf.
  - now apply table_defaults_get.
  - reflexivity.
Qed.

Lemma parseTableParams_fill k defaults w :
  wf_defaults defaults = true ->
  values_of k (getUrlParams w) = [] ->
  obj_get k (parseTableParams defaults w) = obj_get k (table_defaults defaults).
Proof.
  intros Hwf Hk. unfold parseTableParams.
  rewrite (parseUrlParams_absent _ _ _ Hk).
  apply (spread_get k (Some (table_defaults defaults))).
  apply wf_table_defaults.
Qed.

(** X5. [parseTableParams] on a query string that names neither
    [page] nor [pageSize] holds 1 and 10 for them, unless the defaults of
    the caller have these keys, which then win; a key of the caller's
    defaults that the query string does not name holds its default; and
    whatever the query string, [page] and [pageSize] are never absent
    from the result. *)
Theorem table_defaults_apply :
  forall defaults w,
    wf_defaults defaults = true ->
    (values_of "page" (getUrlParams w) = [] ->
     obj_get "page" (parseTableParams defaults w) =
     Some (match default_of "page" defaults with
           | Some v => v
           | None => VNum 1
           end))
    /\ (values_of "pageSize" (getUrlParams w) = [] ->
        obj_get "pageSize" (parseTableParams defaults w) =
        Some (match default_of "pageSize" defaults with
              | Some v => v
              | None => VNum 10
              end))
    /\ (forall k v, default_of k defaults = Some v ->
                    values_of k (getUrlParams w) = [] ->
                    obj_get k (parseTableParams defaults w) = Some v)
    /\ obj_get "page" (parseTableParams defaults w) <> None
    /\ obj_get "pageSize" (parseTableParams defaults w) <> None.
Proof.
  intros defaults w Hwf.
  assert (Hpresent : forall k,
            obj_get k (table_defaults defaults) <> None ->
            obj_get k (parseTableParams defaults w) <> None).
  { intros k Hk. unfold parseTableParams.
    assert (Hown : has_key k (spread (Some (table_defaults defaults))) = true).
    { unfold has_key.
      rewrite (spread_get k (Some (table_defaults defaults)))
        by apply wf_table_defaults.
      simpl default_of. now destruct (obj_get k (table_defaults defaults)). }
    intros Hnone.
    pose proof (fold_parse_entry_has_key k (getUrlParams w)
                  {| own := spread (Some (table_defaults defaults));
                     proto := ProtoObject |} Hown) as Hhas.
    unfold parseUrlParams in Hnone. unfold has_key in Hhas.
    rewrite Hnone in Hhas. discriminate. }
  split; [|split; [|split; [|split]]].
  - intros Hk. rewrite (parseTableParams_fill _ _ _ Hwf Hk).
    rewrite (table_defaults_default _ _ Hwf).
    now destruct (default_of "page" defaults).
  - intros Hk. rewrite (parseTableParams_fill _ _ _ Hwf Hk).
    rewrite (table_defaults_default _ _ Hwf).
    now destruct (default_of "pageSize" defaults).
  - intros k v Hd Hk. rewrite (parseTableParams_fill _ _ _ Hwf Hk).
    now rewrite (table_defaults_default _ _ Hwf), Hd.
  - apply Hpresent. rewrite (table_defaults_default _ _ Hwf).
    now destruct (default_of "page" defaults).
  - apply Hpresent. rewrite (table_defaults_default _ _ Hwf).
    now destruct (default_of "pageSize" defaults).
Qed.

Lemma table_defaults_apply_witness :
  let d := Some [("pageSize", VNum 20); ("status", VStr "open")] in
  let w := window_at "?search=ann" in
  obj_get "page" (parseTableParams d w) = Some (VNum 1)
  /\ obj_get "pageSize" (parseTableParams d w) = Some (VNum 20)
  /\ obj_get "status" (parseTableParams d w) = Some (VStr "open").
Proof.
  intros d w.
  destruct (table_defaults_apply d w eq_refl) as (Hp & Hs & Hd & _).
  split; [exact (Hp eq_refl)|].
  split; [exact (Hs eq_refl)|].
  exact (Hd "status" (VStr "open") eq_refl eq_refl).
Defined.

(** ** The history writer *)

Lemma here_go_back_push url w : here (go_back (pushState url w)) = here w.
Proof. reflexivity. Qed.

(** X6. [setUrlParams] keeps the path and the fragment and sets the
    query string to the writing of the parameters. With [replace: true]
    the current entry changes and the history keeps its entries; without,
    the former location becomes the entry to go back to, the entries
    ahead are dropped, and going back returns to the former location.
    Unless [scroll: true], one task is deferred, which restores the scroll
    offset read at the call; the offset itself is not changed by the
    call. [setTableParams] writes the same location and replaces the
    current entry, unless the options of the caller have [replace: false]
    or a [replace] that is [undefined]: then it pushes. *)
Theorem history_writer_effect :
  forall params opts w,
    let w' := setUrlParams params opts w in
    let url := {| pathname := pathname (here w);
                  search := buildQueryString params;
                  hash := hash (here w) |} in
    let table_replaces := match opts with
                          | Some {| replace := Flag b |} => b
                          | Some {| replace := Undefined |} => false
                          | _ => true
                          end in
    here w' = url
    /\ scrollY w' = scrollY w
    /\ tasks w' = (if wants_scroll opts then tasks w
                   else tasks w ++ [scrollY w])%list
    /\ (if wants_replace opts
        then behind w' = behind w /\ ahead w' = ahead w
             /\ history_length w' = history_length w
             /\ calls w' = (calls w ++ [ReplaceState url])%list
        else behind w' = here w :: behind w /\ ahead w' = []
             /\ history_length w' = (List.length (behind w) + 2)%nat
             /\ here (go_back w') = here w
             /\ calls w' = (calls w ++ [PushState url])%list)
    /\ here (setTableParams params opts w) = url
    /\ calls (setTableParams params opts w) =
       (calls w ++ [if table_replaces then ReplaceState url
                    else PushState url])%list
    /\ history_length (setTableParams params opts w) =
       (if table_replaces then history_length w
        else List.length (behind w) + 2)%nat.
Proof.
  intros params opts w w' url table_replaces.
  subst w' url table_replaces. unfold setTableParams, setUrlParams.
  split; [|split; [|split; [|split]]].
  - destruct (wants_replace opts); destruct (wants_scroll opts); reflexivity.
  - destruct (wants_replace opts); destruct (wants_scroll opts); reflexivity.
  - destruct (wants_replace opts); destruct (wants_scroll opts); reflexivity.
  - destruct (wants_replace opts); destruct (wants_scroll opts);
      repeat split; unfold history_length; simpl; lia.
  - destruct opts as [[[| |[]] [| |[]]]|]; repeat split;
      unfold history_length; simpl; lia.
Qed.

(** ** Updating and removing parameters *)

Lemma jsString_VStr l : map jsString (map VStr l) = l.
Proof. induction l as [|s l IH]; simpl; [reflexivity|now rewrite IH]. Qed.

Lemma obj_get_delete k o k' :
  wf_obj o = true ->
  obj_get k' (obj_delete k o) =
  if String.eqb k' k then None else obj_get k' o.
Proof.
  unfold wf_obj.
  induction o as [|[k0 v0] r IH]; simpl; intros Hwf.
  - now destruct (String.eqb k' k).
  - apply andb_true_iff in Hwf as [Hnew Hwf].
    destruct (String.eqb_spec k k0) as [E|Hk].
    + subst k0. destruct (String.eqb k' k) eqn:E'; [|reflexivity].
      apply String.eqb_eq in E'. subst k'.
      apply obj_get_None. intros Hin.
      apply existsb_eqb_In in Hin. rewrite Hin in Hnew. discriminate.
    + simpl. rewrite (IH Hwf).
      destruct (String.eqb k' k0) eqn:E0; [|reflexivity].
      destruct (String.eqb k' k) eqn:E1; [|reflexivity].
      apply String.eqb_eq in E0, E1. congruence.
Qed.

Lemma keys_obj_delete k o x : In x (keys (obj_delete k o)) -> In x (keys o).
Proof.
  induction o as [|[k0 v0] r IH]; simpl; [tauto|].
  destruct (String.eqb k k0); simpl; [tauto|].
  intros [H|H]; [now left|right; now apply IH].
Qed.

Lemma wf_obj_delete k o : wf_obj o = true -> wf_obj (obj_delete k o) = true.
Proof.
  unfold wf_obj. rewrite !nodup_keys_NoDup.
  induction o as [|[k0 v0] r IH]; simpl; intros Hnd; [constructor|].
  inversion Hnd as [|? ? Hk0 Hr]; subst.
  destruct (String.eqb k k0); simpl; [assumption|].
  constructor; [|now apply IH].
  intros Hin. apply Hk0. now apply keys_obj_delete in Hin.
Qed.

Lemma wf_delete_all ks o :
  wf_obj o = true ->
  wf_obj (fold_left (fun o k => obj_delete k o) ks o) = true.
Proof.
  revert o. induction ks as [|k ks IH]; intros o Hwf; simpl; [assumption|].
  apply IH. now apply wf_obj_delete.
Qed.

Lemma obj_get_delete_all ks o k' :
  wf_obj o = true ->
  obj_get k' (fold_left (fun o k => obj_delete k o) ks o) =
  if existsb (String.eqb k') ks then None else obj_get k' o.
Proof.
  revert o. induction ks as [|k ks IH]; intros o Hwf; simpl; [reflexivity|].
  rewrite IH by now apply wf_obj_delete.
  rewrite (obj_get_delete _ _ _ Hwf).
  destruct (String.eqb k' k); simpl; [|reflexivity].
  now destruct (existsb (String.eqb k') ks).
Qed.

Lemma parseUrlParams_None_get k w :
  unlent k (getUrlParams w) = true ->
  obj_get k (parseUrlParams None w) = read_back (values_of k (getUrlParams w)).
Proof. intros H. now apply parseUrlParams_fresh. Qed.

(** What [parseUrlParams] returns without defaults has no own
    [__proto__]. *)
Lemma parseUrlParams_no_proto w : obj_get "__proto__" (parseUrlParams None w) = None.
Proof.
  pose proof (fold_parse_entry_proto_not_own (getUrlParams w)
                {| own := spread None; proto := ProtoObject |} eq_refl) as H.
  unfold parseUrlParams, has_key in *.
  now destruct (obj_get "__proto__" _).
Qed.

(** What the URL holds, read without defaults, for a key that inherits
    nothing, once an object was written to it. *)
Lemma read_after_write k params opts w :
  wf_obj params = true ->
  inherits_nothing k params = true ->
  obj_get k (parseUrlParams None (setUrlParams params opts w)) =
  reread (obj_get k params).
Proof.
  intros Hwf Hk.
  rewrite (parseUrlParams_None_get _ _
             (inherits_nothing_unlent _ _ _ Hwf (search_setUrlParams _ _ _) Hk)).
  rewrite (values_of_built k params _ Hwf (search_setUrlParams _ _ _)).
  now destruct (obj_get k params).
Qed.

Lemma reread_round_trips v : round_trips v = true -> reread (Some v) = Some v.
Proof. intros H. now apply read_back_raws_of. Qed.

(** The object that [updateUrlParams] writes has the [__proto__] of
    the updates, if any: what is read from the URL has none. *)
Lemma merged_proto updates w :
  wf_obj updates = true ->
  obj_get "__proto__"
    (obj_assign (spread (Some (parseUrlParams None w))) updates) =
  obj_get "__proto__" updates.
Proof.
  intros Hwf. rewrite (obj_get_assign _ _ _ Hwf).
  destruct (obj_get "__proto__" updates); [reflexivity|].
  rewrite (spread_equiv _ (wf_parseUrlParams None w)).
  apply parseUrlParams_no_proto.
Qed.

(** X7. [updateUrlParams], read back without defaults, for a key that
    inherits nothing ([Object.prototype] does not lend it, and a sequence
    does not either unless the updates write no [__proto__]): a key of
    the updates holds what its new value reads back as, so that
    [undefined], [null] and the empty string remove the key from the URL;
    any other key holds what its former value reads back as, which is the
    former value when that one round trips, and nothing when it was the
    empty string. *)
Theorem updateUrlParams_effect :
  forall updates opts w k,
    wf_obj updates = true ->
    inherits_nothing k updates = true ->
    let before := parseUrlParams None w in
    let after := parseUrlParams None (updateUrlParams updates opts w) in
    obj_get k after =
      match obj_get k updates with
      | Some v => read_back (raws_of v)
      | None => reread (obj_get k before)
      end
    /\ (forall v, obj_get k updates = None -> obj_get k before = Some v ->
                  round_trips v = true -> obj_get k after = Some v)
    /\ (obj_get k updates = None -> obj_get k before = Some (VStr "") ->
        obj_get k after = None).
Proof.
  intros updates opts w k Hwf Hk before after.
  assert (Hafter : obj_get k after =
                   match obj_get k updates with
                   | Some v => read_back (raws_of v)
                   | None => reread (obj_get k before)
                   end).
  { subst after before. unfold updateUrlParams.
    rewrite read_after_write; [|apply wf_obj_assign, wf_spread|].
    - rewrite (obj_get_assign _ _ _ Hwf).
      destruct (obj_get k updates) as [v|]; [reflexivity|].
      now rewrite (spread_equiv _ (wf_parseUrlParams None w) k).
    - unfold inherits_nothing in *. now rewrite merged_proto. }
  split; [exact Hafter|split].
  - intros v Hnone Hv Hrt. rewrite Hafter, Hnone, Hv.
    now apply reread_round_trips.
  - intros Hnone Hv. now rewrite Hafter, Hnone, Hv.
Qed.

Lemma updateUrlParams_effect_witness :
  let w := window_at "?q=shoes&sort=price&tag=a&tag=b&empty=" in
  let w' := updateUrlParams [("page", VNum 1); ("q", VUndefined)] None w in
  search (here w') = "?sort=price&tag=a&tag=b&page=1"
  /\ obj_get "page" (parseUrlParams None w') = Some (VNum 1)
  /\ obj_get "q" (parseUrlParams None w') = None
  /\ obj_get "sort" (parseUrlParams None w') = Some (VStr "price")
  /\ obj_get "tag" (parseUrlParams None w') = Some (VArr [VStr "a"; VStr "b"])
  /\ obj_get "empty" (parseUrlParams None w') = None.
Proof.
  intros w w'.
  pose proof (fun k H => updateUrlParams_effect
                [("page", VNum 1); ("q", VUndefined)] None w k eq_refl H) as E.
  split; [reflexivity|].
  split; [exact (proj1 (E "page" eq_refl))|].
  split; [exact (proj1 (E "q" eq_refl))|].
  split; [exact (proj1 (proj2 (E "sort" eq_refl)) (VStr "price")
                   eq_refl eq_refl eq_refl)|].
  split.
  - exact (proj1 (proj2 (E "tag" eq_refl)) (VArr [VStr "a"; VStr "b"])
             eq_refl eq_refl eq_refl).
  - exact (proj2 (proj2 (E "empty" eq_refl)) eq_refl eq_refl).
Defined.

(** The object that [removeUrlParams] writes has no [__proto__]. *)
Lemma removed_proto ks w :
  obj_get "__proto__"
    (fold_left (fun o k => obj_delete k o) ks
       (spread (Some (parseUrlParams None w)))) = None.
Proof.
  rewrite obj_get_delete_all by apply wf_spread.
  destruct (existsb (String.eqb "__proto__") ks); [reflexivity|].
  rewrite (spread_equiv _ (wf_parseUrlParams None w)).
  apply parseUrlParams_no_proto.
Qed.

(** X8. [removeUrlParams], read back without defaults, for a key that
    [Object.prototype] does not lend: a removed key is absent, whether
    the URL had it or not; any other key holds what its former value
    reads back as, which is the former value when that one round trips,
    and nothing when it was the empty string. A history entry is written
    even when no key of the list was in the URL. *)
Theorem removeUrlParams_effect :
  forall ks opts w k,
    let before := parseUrlParams None w in
    let after := parseUrlParams None (removeUrlParams ks opts w) in
    (object_lends k = false ->
     obj_get k after =
       (if existsb (String.eqb k) ks then None
        else reread (obj_get k before))
     /\ (forall v, existsb (String.eqb k) ks = false ->
                   obj_get k before = Some v -> round_trips v = true ->
                   obj_get k after = Some v))
    /\ List.length (calls (removeUrlParams ks opts w)) =
       S (List.length (calls w)).
Proof.
  intros ks opts w k before after. split.
  - intros Hk.
    assert (Hafter : obj_get k after =
                     if existsb (String.eqb k) ks then None
                     else reread (obj_get k before)).
    { subst after before. unfold removeUrlParams.
      rewrite read_after_write; [|apply wf_delete_all, wf_spread|].
      - rewrite obj_get_delete_all by apply wf_spread.
        destruct (existsb (String.eqb k) ks); [reflexivity|].
        now rewrite (spread_equiv _ (wf_parseUrlParams None w) k).
      - unfold inherits_nothing. rewrite Hk, removed_proto.
        apply orb_true_r. }
    split; [exact Hafter|].
    intros v Hks Hv Hrt. rewrite Hafter, Hks, Hv.
    now apply reread_round_trips.
  - unfold removeUrlParams, setUrlParams.
    destruct (wants_replace opts); destruct (wants_scroll opts); simpl;
      rewrite length_app; simpl; lia.
Qed.

Lemma removeUrlParams_effect_witness :
  let w := window_at "?q=shoes&page=3&filter=new&tag=a&tag=b" in
  let w' := removeUrlParams ["q"; "missing"] None w in
  search (here w') = "?page=3&filter=new&tag=a&tag=b"
  /\ obj_get "q" (parseUrlParams None w') = None
  /\ obj_get "page" (parseUrlParams None w') = Some (VNum 3)
  /\ obj_get "filter" (parseUrlParams None w') = Some (VStr "new").
Proof.
  intros w w'.
  pose proof (fun k H => proj1 (removeUrlParams_effect ["q"; "missing"] None w k)
                           H) as E.
  split; [reflexivity|].
  split; [exact (proj1 (E "q" eq_refl))|].
  split; [exact (proj2 (E "page" eq_refl) (VNum 3) eq_refl eq_refl eq_refl)|].
  exact (proj2 (E "filter" eq_refl) (VStr "new") eq_refl eq_refl eq_refl).
Defined.

(** ** The generic hook *)

(** X9. Every mutator of the generic hook ([set], [update], [remove],
    [reset]) pushes: the former location becomes the entry to go back
    to. When the user then goes back and the handler of [popstate] runs,
    the window is at the former location again and the state is what
    [parseUrlParams] reads there over the defaults. *)
Theorem back_undoes_mutation :
  forall defaults m st,
    let st1 := run (call_url defaults m) st in
    let st2 := run (UseUrlState.handlePopState defaults)
                 {| state := state st1; win := go_back (win st1) |} in
    behind (win st1) = here (win st) :: behind (win st)
    /\ ahead (win st1) = []
    /\ here (win st2) = here (win st)
    /\ ahead (win st2) = [here (win st1)]
    /\ state st2 = Some (parseUrlParams defaults (win st)).
Proof. intros defaults m st. destruct m; repeat split. Qed.

Lemma state_get_spread k (s : UseUrlState.T) :
  match s with Some o => wf_obj o | None => true end = true ->
  obj_get k (spread s) = state_get k s.
Proof. apply spread_get. Qed.

(** X10. [update] of the generic hook merges the given parameters over
    the state in memory, and over the parameters of the URL in the URL:
    a given key holds its new value in memory, [undefined] included, and
    in the URL, when the key inherits nothing, what this value reads
    back as; another key keeps its value in memory. *)
Theorem update_merges :
  forall params st k,
    wf_obj params = true ->
    match state st with Some o => wf_obj o | None => true end = true ->
    let st' := run (UseUrlState.update params) st in
    state_get k (state st') =
      match obj_get k params with
      | Some v => Some v
      | None => state_get k (state st)
      end
    /\ win st' = updateUrlParams params None (win st)
    /\ (forall v, inherits_nothing k params = true ->
          obj_get k params = Some v ->
          obj_get k (parseUrlParams None (win st')) = read_back (raws_of v)).
Proof.
  intros params st k Hwf Hst st'. subst st'. split; [|split].
  - change (obj_get k (obj_assign (spread (state st)) params) =
            match obj_get k params with
            | Some v => Some v
            | None => state_get k (state st)
            end).
    rewrite (obj_get_assign _ _ _ Hwf).
    destruct (obj_get k params); [reflexivity|].
    now apply state_get_spread.
  - reflexivity.
  - intros v Hk Hv.
    change (obj_get k (parseUrlParams None
                         (updateUrlParams params None (win st))) =
            read_back (raws_of v)).
    unfold updateUrlParams.
    rewrite read_after_write; [|apply wf_obj_assign, wf_spread|].
    + now rewrite (obj_get_assign _ _ _ Hwf), Hv.
    + unfold inherits_nothing in *. now rewrite merged_proto.
Qed.

Lemma update_merges_witness :
  let st := UseUrlState.init (Some [("tab", VStr "all")]) (window_at "?q=a") in
  let st' := run (UseUrlState.update [("page", VNum 2); ("q", VUndefined)]) st in
  state_get "page" (state st') = Some (VNum 2)
  /\ state_get "q" (state st') = Some VUndefined
  /\ state_get "tab" (state st') = Some (VStr "all")
  /\ obj_get "q" (parseUrlParams None (win st')) = None
  /\ search (here (win st')) = "?page=2".
Proof.
  intros st st'.
  pose proof (fun k => update_merges [("page", VNum 2); ("q", VUndefined)] st k
                         eq_refl eq_refl) as H.
  split; [exact (proj1 (H "page"))|].
  split; [exact (proj1 (H "q"))|].
  split; [exact (proj1 (H "tab"))|].
  split; [exact (proj2 (proj2 (H "q")) VUndefined eq_refl eq_refl)|].
  reflexivity.
Defined.

Lemma delete_all_nil ks : fold_left (fun o k => obj_delete k o) ks [] = [].
Proof. induction ks as [|k ks IH]; simpl; [reflexivity|assumption]. Qed.

(** X11. [remove] of the generic hook, in memory: a listed key is
    absent afterwards, whether the state had it or not, and every other
    key keeps its value; from the [undefined] state the result is the
    empty object. The URL is written by [removeUrlParams]. *)
Theorem remove_deletes :
  forall ks st k,
    match state st with Some o => wf_obj o | None => true end = true ->
    let st' := run (UseUrlState.remove ks) st in
    state_get k (state st') =
      (if existsb (String.eqb k) ks then None else state_get k (state st))
    /\ (state st = None -> state st' = Some [])
    /\ win st' = removeUrlParams ks None (win st).
Proof.
  intros ks st k Hst st'. subst st'. split; [|split].
  - change (obj_get k (fold_left (fun o k => obj_delete k o) ks
                         (spread (state st))) =
            if existsb (String.eqb k) ks then None
            else state_get k (state st)).
    rewrite obj_get_delete_all by apply wf_spread.
    destruct (existsb (String.eqb k) ks); [reflexivity|].
    now apply state_get_spread.
  - intros Hnone.
    change (Some (fold_left (fun o k => obj_delete k o) ks
                    (spread (state st))) = Some []).
    rewrite Hnone. simpl spread. now rewrite delete_all_nil.
  - reflexivity.
Qed.

Lemma remove_deletes_witness :
  let st := UseUrlState.init (Some [("tab", VStr "all")]) (window_at "?q=a&page=2") in
  let st' := run (UseUrlState.remove ["q"; "missing"]) st in
  state_get "q" (state st') = None
  /\ state_get "missing" (state st') = None
  /\ state_get "page" (state st') = Some (VNum 2)
  /\ state_get "tab" (state st') = Some (VStr "all")
  /\ search (here (win st')) = "?page=2"
  /\ state (run (UseUrlState.remove ["q"])
              (run (UseUrlState.reset None) st)) = Some [].
Proof.
  intros st st'.
  pose proof (fun k => proj1 (remove_deletes ["q"; "missing"] st k eq_refl)) as H.
  split; [exact (H "q")|].
  split; [exact (H "missing")|].
  split; [exact (H "page")|].
  split; [exact (H "tab")|].
  split; [reflexivity|].
  exact (proj1 (proj2 (remove_deletes ["q"] (run (UseUrlState.reset None) st)
                         "q" eq_refl)) eq_refl).
Defined.

(** ** The table hook *)

(** X12. Whatever the mutators called and however the user goes back
    and forward, the table hook adds no entry to the history: when the
    window it is mounted on has seen no [pushState], neither has the
    window afterwards, and the history has the length it had. *)
Theorem table_hook_never_pushes :
  forall defaults w0 st,
    table_reachable defaults w0 st ->
    forallb is_replace (calls w0) = true ->
    forallb is_replace (calls (win st)) = true
    /\ history_length (win st) = history_length w0.
Proof. exact table_reachable_no_push. Qed.

Lemma table_hook_never_pushes_witness :
  let w0 := window_at "?page=2" in
  let st := run (call None (SetSearch "ann"))
              (run (UseTableUrlState.handlePopState None)
                 {| state := state (run (call None (SetPage 3))
                                      (UseTableUrlState.init None w0));
                    win := go_back (win (run (call None (SetPage 3))
                                           (UseTableUrlState.init None w0))) |}) in
  forallb is_replace (calls (win st)) = true
  /\ history_length (win st) = 1%nat.
Proof.
  intros w0 st.
  apply (table_hook_never_pushes None w0 st); [|reflexivity].
  apply reach_call, reach_back, reach_call, reach_init.
Defined.

(** X13. After every mutator of the table hook the query string of the
    window is the writing of the new state, so that the URL, read without
    defaults, holds for each key that inherits nothing what the value in
    memory reads back as; [setSearch("")] takes [search] out of the
    URL. *)
Theorem table_url_follows_state :
  forall defaults m st k,
    let st' := run (call defaults m) st in
    search (here (win st')) = buildQueryString (state st')
    /\ (inherits_nothing k (state st') = true ->
        obj_get k (parseUrlParams None (win st')) =
        read_back (match obj_get k (state st') with
                   | Some v => raws_of v
                   | None => []
                   end))
    /\ obj_get "search"
         (parseUrlParams None (win (run (call defaults (SetSearch "")) st))) = None.
Proof.
  intros defaults m st k st'. subst st'.
  assert (Hsearch : forall m',
            search (here (win (run (call defaults m') st))) =
            buildQueryString (state (run (call defaults m') st))).
  { intros m'. rewrite call_sets_and_syncs. apply search_setUrlParams. }
  assert (Hread : forall m' k',
            inherits_nothing k' (state (run (call defaults m') st)) = true ->
            obj_get k' (parseUrlParams None (win (run (call defaults m') st))) =
            read_back (match obj_get k' (state (run (call defaults m') st)) with
                       | Some v => raws_of v
                       | None => []
                       end)).
  { intros m' k' Hk'.
    rewrite (parseUrlParams_None_get _ _
               (inherits_nothing_unlent _ _ _ (wf_call defaults m' st)
                  (Hsearch m') Hk')).
    now rewrite (values_of_built k' _ _ (wf_call defaults m' st) (Hsearch m')). }
  split; [apply Hsearch|split; [apply Hread|]].
  rewrite Hread by reflexivity. simpl call. rewrite setSearch_state.
  now rewrite obj_get_set_same.
Qed.

Lemma table_url_follows_state_witness :
  let st := UseTableUrlState.init None (window_at "?page=2") in
  let st' := run (call None (SetPageSize 20)) st in
  search (here (win st')) = "?page=1&pageSize=20"
  /\ obj_get "pageSize" (parseUrlParams None (win st')) = Some (VNum 20)
  /\ obj_get "search"
       (parseUrlParams None (win (run (call None (SetSearch "")) st))) = None.
Proof.
  intros st st'.
  pose proof (table_url_follows_state None (SetPageSize 20) st "pageSize") as H.
  split; [reflexivity|].
  split; [exact (proj1 (proj2 H) eq_refl)|].
  exact (proj2 (proj2 H)).
Defined.

(** X14. The state of the table hook does not survive being read again
    from the URL it wrote: for a key that has a default which is neither
    [undefined] nor a sequence, and whose value in memory after a mutator
    is written to the URL, [parseTableParams] on that URL (a reload, or
    the handler of [popstate]) holds the sequence of the default followed
    by the raw writing of the value. After [setPage(n)], with no [page]
    among the defaults of the caller, it holds [[1, String(n)]]. *)
Theorem table_state_reread :
  forall defaults m st,
    wf_defaults defaults = true ->
    let st' := run (call defaults m) st in
    (forall k d v,
       obj_get k (table_defaults defaults) = Some d ->
       is_undefined d = false -> is_array d = false ->
       obj_get k (state st') = Some v ->
       raws_of v <> [] ->
       obj_get k (parseTableParams defaults (win st')) =
       Some (VArr (d :: map VStr (raws_of v))))
    /\ (forall n,
          default_of "page" defaults = None ->
          obj_get "page" (state st') = Some (VNum n) ->
          obj_get "page" (parseTableParams defaults (win st')) =
          Some (VArr [VNum 1; VStr (number_to_string n)])).
Proof.
  intros defaults m st Hwf st'. subst st'.
  assert (Hgen : forall k d v,
            obj_get k (table_defaults defaults) = Some d ->
            is_undefined d = false -> is_array d = false ->
            obj_get k (state (run (call defaults m) st)) = Some v ->
            raws_of v <> [] ->
            obj_get k (parseTableParams defaults (win (run (call defaults m) st))) =
            Some (VArr (d :: map VStr (raws_of v)))).
  { intros k d v Hd Hu Ha Hv Hraws. unfold parseTableParams.
    rewrite (parseUrlParams_get_own _ _ _
               (spread_has_key k _ d (wf_table_defaults defaults) Hd)).
    rewrite (values_of_built k (state (run (call defaults m) st))
               (win (run (call defaults m) st)) (wf_call defaults m st)).
    - rewrite Hv.
      rewrite (spread_present k _ d (wf_table_defaults defaults) Hd).
      destruct (raws_of v) as [|raw raws] eqn:E; [congruence|].
      rewrite (fold_absorb_defined _ _ Hu).
      now destruct d.
    - rewrite call_sets_and_syncs. apply search_setUrlParams. }
  split; [exact Hgen|].
  intros n Hpage Hv.
  apply (Hgen "page" (VNum 1) (VNum n)); try reflexivity; try assumption.
  - rewrite (table_defaults_default _ _ Hwf), Hpage. reflexivity.
  - discriminate.
Qed.

Lemma table_state_reread_witness :
  let st := UseTableUrlState.init None (window_at "") in
  let st' := run (call None (SetPage 5)) st in
  obj_get "page" (state st') = Some (VNum 5)
  /\ search (here (win st')) = "?page=5&pageSize=10"
  /\ obj_get "page" (parseTableParams None (win st')) =
     Some (VArr [VNum 1; VStr "5"])
  /\ obj_get "pageSize" (parseTableParams None (win st')) =
     Some (VArr [VNum 10; VStr "10"]).
Proof.
  intros st st'.
  destruct (table_state_reread None (SetPage 5) st eq_refl) as [Hgen Hpage].
  split; [reflexivity|]. split; [reflexivity|]. split.
  - exact (Hpage 5%Z eq_refl eq_refl).
  - apply (Hgen "pageSize" (VNum 10) (VNum 10)); try reflexivity. discriminate.
Defined.

(** ** More on reading *)

Lemma infer_not_null raw : infer raw <> VNull.
Proof.
  unfold infer.
  destruct (String.eqb raw "true"); [discriminate|].
  destruct (String.eqb raw "false"); [discriminate|].
  destruct (matches_digits raw); [|discriminate].
  unfold parseInt10. destruct (round_to_double (mathInt raw)); discriminate.
Qed.

Lemma forallb_is_str l : forallb is_str (map VStr l) = true.
Proof. induction l as [|s l IH]; simpl; [reflexivity|assumption]. Qed.

Lemma read_back_shape raws v :
  read_back raws = Some v -> parsed_shape v = true.
Proof.
  destruct raws as [|raw [|second others]]; simpl; [discriminate| |].
  - intros [= <-]. pose proof (infer_inferred raw) as H.
    destruct (infer raw); try discriminate H; exact H.
  - intros [= <-]. simpl. rewrite infer_inferred. simpl.
    apply forallb_is_str.
Qed.

Lemma inferred_cases v :
  inferred v = true ->
  inferred_back v = true \/ beyond_digits v = true.
Proof.
  destruct v as [| | b | n | s | elems | | h];
    cbn [inferred inferred_back beyond_digits]; try discriminate; auto.
  intros H. apply andb_prop in H. destruct H as [Hpos Hd].
  destruct (Z.ltb_spec n (10 ^ 21)) as [Hlt|Hge].
  - left. now rewrite Hpos, Hd.
  - right. now apply Z.leb_le.
Qed.

(** A value of the parsed shape is the empty string, round trips, or
    holds a number that is not written in digits. *)
Lemma parsed_shape_cases v :
  parsed_shape v = true ->
  v = VStr "" \/ round_trips v = true \/ beyond_digits v = true.
Proof.
  destruct v as [| | b | n | s | elems | | h];
    cbn [parsed_shape inferred round_trips inferred_back beyond_digits
         omitted negb andb];
    try discriminate; auto.
  - intros H. apply andb_prop in H. destruct H as [Hpos Hd].
    destruct (Z.ltb_spec n (10 ^ 21)) as [Hlt|Hge].
    + right. left. now rewrite Hpos, Hd.
    + right. right. now apply Z.leb_le.
  - destruct s as [|c s]; [now left|].
    intros H. right. left. now rewrite H.
  - destruct elems as [|first [|second others]]; try discriminate.
    intros H. apply andb_prop in H. destruct H as [Hfirst Hrest].
    destruct (inferred_cases _ Hfirst) as [Hb|Hb].
    + right. left. now rewrite Hb, Hrest.
    + right. right.
      destruct first as [| | b | n | s | elems | | h];
        try discriminate Hfirst; try discriminate Hb; exact Hb.
Qed.

(** No own value of the object is [undefined] or [null]. *)
Definition all_defined (o : obj) : Prop :=
  forall k v, obj_get k o = Some v -> v <> VUndefined /\ v <> VNull.

Lemma all_defined_set k v o :
  v <> VUndefined -> v <> VNull ->
  all_defined o -> all_defined (obj_set k v o).
Proof.
  intros Hu Hn Ho k' v'. rewrite obj_get_set.
  destruct (String.eqb k' k).
  - intros [= <-]. now split.
  - apply Ho.
Qed.

Lemma parse_entry_all_defined result p :
  all_defined (own result) -> all_defined (own (parse_entry result p)).
Proof.
  intros Ho. destruct p as [key value]. unfold parse_entry.
  assert (Harr : forall elems,
            all_defined (own (js_set_array key elems result))).
  { intros elems. unfold js_set_array.
    destruct (negb (has_key key (own result)) && String.eqb key "__proto__");
      simpl; [exact Ho|].
    apply all_defined_set; [discriminate|discriminate|exact Ho]. }
  destruct (negb (is_undefined (js_get key result))).
  - destruct (js_get key result); apply Harr.
  - unfold js_set_fresh. simpl. apply all_defined_set; [| |exact Ho].
    + intros E. destruct (infer_shape value) as [Hu _].
      rewrite E in Hu. discriminate.
    + apply infer_not_null.
Qed.

Lemma fold_parse_entry_all_defined l result :
  all_defined (own result) ->
  all_defined (own (fold_left parse_entry l result)).
Proof.
  revert result. induction l as [|p l IH]; intros result H; simpl;
    [assumption|].
  apply IH. now apply parse_entry_all_defined.
Qed.

(** X15. What [parseUrlParams] reads without defaults is never
    [undefined] and never [null]. For a key that inherits nothing it is
    a boolean, a number from 0 up, [Infinity], a string that keeps its
    type, or a sequence of two elements or more whose first element is
    one of these and whose other elements are strings; and it is in the
    form that survives writing and reading, unless it is the empty
    string, or it holds a number from 10^21 up or [Infinity], which are
    not written in digits. *)
Theorem parsed_values_canonical :
  forall w k v,
    obj_get k (parseUrlParams None w) = Some v ->
    (v <> VUndefined /\ v <> VNull)
    /\ (unlent k (getUrlParams w) = true ->
        parsed_shape v = true
        /\ (v = VStr "" \/ round_trips v = true \/ beyond_digits v = true)).
Proof.
  intros w k v Hv. split.
  - revert Hv. unfold parseUrlParams.
    apply fold_parse_entry_all_defined. intros k' v'. discriminate.
  - intros Hk. rewrite (parseUrlParams_None_get _ _ Hk) in Hv.
    pose proof (read_back_shape _ _ Hv) as Hshape.
    split; [exact Hshape|now apply parsed_shape_cases].
Qed.

Lemma parsed_values_canonical_witness :
  let w := window_at "?a=007&b=&c=x&c=1&n=1000000000000000000000" in
  obj_get "a" (parseUrlParams None w) = Some (VNum 7)
  /\ round_trips (VNum 7) = true
  /\ obj_get "b" (parseUrlParams None w) = Some (VStr "")
  /\ obj_get "c" (parseUrlParams None w) = Some (VArr [VStr "x"; VStr "1"])
  /\ obj_get "n" (parseUrlParams None w) = Some (VNum (10 ^ 21))
  /\ parsed_shape (VNum (10 ^ 21)) = true.
Proof.
  intros w.
  destruct (parsed_values_canonical w "a" (VNum 7) eq_refl) as [_ Ha].
  destruct (Ha eq_refl) as [_ [Ha'|[Ha'|Ha']]];
    [discriminate Ha'| |discriminate Ha'].
  destruct (parsed_values_canonical w "n" (VNum (10 ^ 21)) eq_refl) as [_ Hn].
  split; [reflexivity|]. split; [exact Ha'|]. split; [reflexivity|].
  split; [reflexivity|]. split; [reflexivity|].
  exact (proj1 (Hn eq_refl)).
Defined.

(** X16. Writing an object and reading the query string over defaults,
    for a key that has a default other than [undefined]: when the object
    writes nothing for the key the default stays; otherwise the result is
    a sequence, the default (or its elements, when it is a sequence)
    followed by the raw writings of the value. So a key with a default
    never reads back as the value that was written. *)
Theorem write_then_read_over_default :
  forall params d w k dflt,
    wf_obj params = true ->
    wf_obj d = true ->
    obj_get k d = Some dflt ->
    is_undefined dflt = false ->
    search (here w) = buildQueryString params ->
    obj_get k (parseUrlParams (Some d) w) =
    Some (match (match obj_get k params with
                 | Some v => raws_of v
                 | None => []
                 end) with
          | [] => dflt
          | raws =>
              match dflt with
              | VArr elems => VArr (elems ++ map VStr raws)
              | _ => VArr (dflt :: map VStr raws)
              end
          end).
Proof.
  intros params d w k dflt Hwf Hd Hget Hu Hsearch.
  rewrite (parseUrlParams_get_own _ _ _ (spread_has_key k d dflt Hd Hget)).
  rewrite (values_of_built k params w Hwf Hsearch).
  rewrite (spread_present k d dflt Hd Hget).
  destruct (match obj_get k params with
            | Some v => raws_of v
            | None => []
            end) as [|raw raws] eqn:E.
  - simpl. rewrite (obj_get_assign_present k dflt [] d Hd Hget). reflexivity.
  - now rewrite (fold_absorb_defined _ _ Hu).
Qed.

Lemma write_then_read_over_default_witness :
  let d := [("tab", VStr "all"); ("page", VNum 1)] in
  let st := run (UseUrlState.reset (Some d)) (UseUrlState.init (Some d) (window_at "")) in
  state st = Some d
  /\ search (here (win st)) = "?tab=all&page=1"
  /\ obj_get "tab" (parseUrlParams (Some d) (win st)) =
     Some (VArr [VStr "all"; VStr "all"])
  /\ obj_get "page" (parseUrlParams (Some d) (win st)) =
     Some (VArr [VNum 1; VStr "1"]).
Proof.
  intros d st. split; [reflexivity|]. split; [reflexivity|]. split.
  - exact (write_then_read_over_default d d (win st) "tab" (VStr "all")
             eq_refl eq_refl eq_refl eq_refl eq_refl).
  - exact (write_then_read_over_default d d (win st) "page" (VNum 1)
             eq_refl eq_refl eq_refl eq_refl eq_refl).
Defined.
